(** * NodeBcknd: the spreadsheet translation job of [fileProcessor.js]

    A shallow embedding of [src/fileProcessor.js] (column detection, row
    extraction, batched translation with a cache, the writer) and of the
    request handler of [src/server.js], followed by the properties of the
    specification that were checked against it.

    Conventions of the embedding.
    - A JavaScript string is a sequence of code units; the code units modelled
      are those below 256 (Latin-1), one [ascii] each.
    - A JavaScript number is a binary64 value, Rocq's primitive [float].
    - [translationCache] is a plain object, [{}], used as a dictionary under
      keys that come from the sheet and from the model's answer. It is
      modelled as such: its own properties and its prototype, with reads
      that walk the prototype chain and assignments that may reach the
      [__proto__] setter of [Object.prototype].
    - The cell table of a worksheet is keyed by A1 cell names, which are no
      property names of [Object.prototype]; it is a [gmap] of its own
      properties. So is [workbook.Sheets]: the job only reads the sheet
      named first, and a name without a sheet of its own yields nothing
      that has a ["!ref"].
    - The external collaborators (job store, object storage, the chat model)
      and [JSON.parse] are the fields of an [environment]; the calls a run
      makes that change the world are recorded in a chronological event
      log. Updates of the job store do not throw (the client reports a
      failure in its result, which the code ignores), so they are events
      only. Console output is not modelled. *)

From Stdlib Require Import ZArith List Sorted String Ascii Floats Lia.
From stdpp Require Import base option list gmap strings.
From Equations Require Import Equations.
Import ListNotations.

Set Warnings "-register-all".
Local Open Scope string_scope.
Local Open Scope nat_scope.
Local Open Scope list_scope.

(** ** JavaScript strings *)

Module JSString.

(** WhiteSpace and LineTerminator code units below 256: TAB, LF, VT, FF,
    CR, SP and NBSP. They are what [String.prototype.trim] strips and what
    [\s] matches. *)
Definition isWhiteSpace (ch : ascii) : bool :=
  let n := nat_of_ascii ch in
  (n =? 9) || (n =? 10) || (n =? 11) || (n =? 12) || (n =? 13)
  || (n =? 32) || (n =? 160).

Fixpoint trimStart (s : string) : string :=
  match s with
  | EmptyString => EmptyString
  | String ch rest => if isWhiteSpace ch then trimStart rest else s
  end.

Fixpoint trimEnd (s : string) : string :=
  match s with
  | EmptyString => EmptyString
  | String ch rest =>
      match trimEnd rest with
      | EmptyString => if isWhiteSpace ch then EmptyString else String ch EmptyString
      | kept => String ch kept
      end
  end.

(** [s.trim()] *)
Definition trim (s : string) : string := trimEnd (trimStart s).

(** Lower-casing of one code unit below 256: A-Z, and the Latin-1 capitals
    U+00C0..U+00DE except the multiplication sign U+00D7. *)
Definition lowerChar (ch : ascii) : ascii :=
  let n := nat_of_ascii ch in
  if ((65 <=? n) && (n <=? 90))
     || ((192 <=? n) && (n <=? 222) && negb (n =? 215))
  then ascii_of_nat (n + 32) else ch.

(** [s.toLowerCase()] *)
Fixpoint toLowerCase (s : string) : string :=
  match s with
  | EmptyString => EmptyString
  | String ch rest => String (lowerChar ch) (toLowerCase rest)
  end.

(** [\w]: the word characters of a regular expression without the [u] flag. *)
Definition isWordChar (ch : ascii) : bool :=
  let n := nat_of_ascii ch in
  ((48 <=? n) && (n <=? 57)) || ((65 <=? n) && (n <=? 90))
  || ((97 <=? n) && (n <=? 122)) || (n =? 95).

(** [parts.join(sep)] *)
Fixpoint join (sep : string) (parts : list string) : string :=
  match parts with
  | [] => EmptyString
  | [x] => x
  | x :: rest => x +:+ sep +:+ join sep rest
  end.

Fixpoint occurs (ch : ascii) (s : string) : bool :=
  match s with
  | EmptyString => false
  | String ch' rest => Ascii.eqb ch ch' || occurs ch rest
  end.

(** The last element of [s.split("/")]: what follows the last slash, the
    whole string when there is none. *)
Fixpoint lastSegment (s : string) : string :=
  match s with
  | EmptyString => EmptyString
  | String ch rest =>
      if occurs "/" rest then lastSegment rest
      else if Ascii.eqb ch "/" then rest
      else s
  end.

End JSString.
Import JSString.

(** ** JavaScript values *)

(** Data: what [JSON.parse] builds, what a cell of a parsed workbook holds,
    and [undefined] for a missing property. An object is the list of its
    own properties. *)
Inductive value : Type :=
| VUndefined
| VNull
| VBool (b : bool)
| VNum (x : float)
| VStr (s : string)
| VArr (items : list value)
| VObj (props : list (string * value)).

(** The built-in objects that a read of a plain object can bring up through
    its prototype chain: [Object.prototype] itself, the constructors
    [Object] and [Array], and the methods of the two prototypes. *)
Inductive builtin : Type :=
| TheObjectPrototype
| ObjectFunction
| ArrayFunction
| ObjectPrototypeMethod (name : string)
| ArrayPrototypeMethod (name : string).

(** What an expression of the job can evaluate to: data, or a built-in. *)
Inductive jsval : Type :=
| Data (x : value)
| Builtin (b : builtin).
Coercion Data : value >-> jsval.

(** ToBoolean, as [||], [&&], [!] and [if] apply it. Objects, built-in or
    not, are truthy. *)
Definition truthy (x : jsval) : bool :=
  match x with
  | Data VUndefined | Data VNull => false
  | Data (VBool b) => b
  | Data (VNum n) => negb (PrimFloat.eqb n 0%float || PrimFloat.is_nan n)
  | Data (VStr s) => negb (String.eqb s "")
  | Data (VArr _) | Data (VObj _) => true
  | Builtin _ => true
  end.

(** [a || b] *)
Definition or_else (a b : jsval) : jsval := if truthy a then a else b.

(** Thrown exceptions carry their message. *)
Inductive completion (A : Type) : Type :=
| Normal (a : A)
| Throw (message : string).
Arguments Normal {A} a.
Arguments Throw {A} message.

(** [x.name] for a property [name] that no prototype defines (["key"],
    ["value"]): an own property of an object, [undefined] on any other
    value, a TypeError on [null] and [undefined]. *)
Fixpoint ownProp (name : string) (props : list (string * value)) : value :=
  match props with
  | [] => VUndefined
  | (k, x) :: rest => if String.eqb k name then x else ownProp name rest
  end.

Definition getProp (x : value) (name : string) : completion value :=
  match x with
  | VUndefined | VNull => Throw "TypeError: Cannot read properties of null or undefined"
  | VObj props => Normal (ownProp name props)
  | _ => Normal VUndefined
  end.

(** [x.trim()]: defined on strings only; any other receiver has no callable
    [trim] and the call throws. *)
Definition callTrim (x : value) : completion string :=
  match x with
  | VStr s => Normal (trim s)
  | VUndefined | VNull => Throw "TypeError: Cannot read properties of null or undefined"
  | _ => Throw "TypeError: trim is not a function"
  end.

(** ** Workbooks, as the xlsx library hands them over *)

(** A cell object: [t] is the type tag (["s"] text, ["n"] number, ...), [v]
    the raw value. The other fields of a cell are never read by the job. *)
Record cell : Type := { t : string; v : jsval }.

(** [XLSX.utils.decode_range(worksheet["!ref"])]: [{s: {c, r}, e: {c, r}}]. *)
Record range : Type := { s_c : nat; s_r : nat; e_c : nat; e_r : nat }.

(** A worksheet: the declared range (absent when ["!ref"] is missing or
    empty) and the sparse cell table. [XLSX.utils.encode_cell] maps
    [(c, r)] to its A1 name one to one, so cells are keyed by [(c, r)]. *)
Record worksheet : Type := { ref : option range; cells : gmap (nat * nat) cell }.

Record workbook : Type := { SheetNames : list string; Sheets : gmap string worksheet }.

Definition getCell (worksheet : worksheet) (cIndex rIndex : nat) : option cell :=
  cells worksheet !! (cIndex, rIndex).

(** ** Column detection *)

(** A header collected from the header row. *)
Record header : Type := { text : string; lower : string; col : nat }.

(** A regular expression without the [g] and [y] flags is used through
    [test] only, which is then a function of the subject string. *)
Definition RegExp : Type := string -> bool.

(** A candidate is a string or a regular expression; [norm] tags it. *)
Inductive candidate : Type :=
| CString (x : string)
| CRegExp (x : RegExp).

Inductive want : Type :=
| WStr (value : string)
| WRe (value : RegExp).

Definition norm (x : candidate) : want :=
  match x with
  | CString x => WStr (toLowerCase x)
  | CRegExp x => WRe x
  end.

(** The loop [for (c = range.s.c; c <= range.e.c; c++)] of
    [findColumnByHeader]: a header for every cell of the header row whose
    value is a string that is not empty once trimmed. *)
Definition headerAt (worksheet : worksheet) (headerRow c : nat) : list header :=
  match getCell worksheet c headerRow with
  | Some {| v := Data (VStr x) |} =>
      let raw := trim x in
      if String.eqb raw "" then []
      else [ {| text := raw; lower := toLowerCase raw; col := c |} ]
  | _ => []
  end.

Definition collectHeaders (worksheet : worksheet) (range : range) : list header :=
  flat_map (headerAt worksheet (s_r range)) (seq (s_c range) (S (e_c range) - s_c range)).

(** pass 1: exact case-insensitive matches *)
Fixpoint pass1 (headers : list header) (wants : list want) : option nat :=
  match wants with
  | [] => None
  | WStr value :: wants' =>
      match List.find (fun h => String.eqb (lower h) value) headers with
      | Some hit => Some (col hit)
      | None => pass1 headers wants'
      end
  | WRe _ :: wants' => pass1 headers wants'
  end.

(** pass 2: regex matches against the header text *)
Fixpoint pass2 (headers : list header) (wants : list want) : option nat :=
  match wants with
  | [] => None
  | WRe value :: wants' =>
      match List.find (fun h => value (text h)) headers with
      | Some hit => Some (col hit)
      | None => pass2 headers wants'
      end
  | WStr _ :: wants' => pass2 headers wants'
  end.

(** [None] is the [null] of the source. *)
Definition findColumnByHeader (worksheet : worksheet) (candidates : list candidate)
  : option nat :=
  match ref worksheet with
  | None => None
  | Some range =>
      let headers := collectHeaders worksheet range in
      let wants := map norm candidates in
      match pass1 headers wants with
      | Some c => Some c
      | None => pass2 headers wants
      end
  end.

(** [/^Translated string\b/i]: the subject starts with "translated string"
    in any letter case, and what follows is not a word character. The
    letters of the pattern are ASCII, so folding the subject's case with
    [toLowerCase] matches exactly the subjects the [i] flag accepts. *)
Definition translatedStringRe : RegExp := fun subject =>
  let pat := "translated string" in
  String.eqb (substring 0 (String.length pat) (toLowerCase subject)) pat
  && match String.get (String.length pat) subject with
     | Some ch => negb (isWordChar ch)
     | None => true
     end.

Record columns : Type := { sourceColIndex : nat; targetColIndex : nat }.

Definition sourceCandidates : list candidate :=
  [CString "Field Value"; CString "Base"; CString "Source"; CString "Text"].

Definition targetCandidates : list candidate :=
  [CRegExp translatedStringRe; CString "Translation"; CString "Translated";
   CString "Norsk"].

(** [x ?? d] is [default d x]. *)
Definition resolveColumnsForSingleSheet (worksheet : worksheet) : columns :=
  {| sourceColIndex := default 1 (findColumnByHeader worksheet sourceCandidates);
     targetColIndex := default 3 (findColumnByHeader worksheet targetCandidates) |}.

(** ** Row extraction *)

(** An entry of [rowsToTranslate]. [translated] is [undefined] until step 3
    of [processFile] assigns it. *)
Module Item.
Record item : Type :=
  { sheetName : string; row : nat; original : string; targetColIndex : nat;
    translated : jsval }.
End Item.
Abbreviation item := Item.item.

(** The test [cell && cell.t === "s" && typeof cell.v === "string" &&
    cell.v.trim()] of the extraction loop; it yields the trimmed text. *)
Definition sourceText (cell : option cell) : option string :=
  match cell with
  | Some {| t := ty; v := Data (VStr x) |} =>
      if String.eqb ty "s" && negb (String.eqb (trim x) "") then Some (trim x)
      else None
  | _ => None
  end.

(** The body of the loop [for (r = range.s.r + 1; r <= range.e.r; r++)]:
    what one row pushes on [rowsToTranslate]. *)
Definition rowAt (worksheet : worksheet) (sheetName : string)
    (sourceColIndex targetColIndex r : nat) : list item :=
  match sourceText (getCell worksheet sourceColIndex r) with
  | Some original =>
      [ {| Item.sheetName := sheetName; Item.row := r; Item.original := original;
           Item.targetColIndex := targetColIndex; Item.translated := VUndefined |} ]
  | None => []
  end.

Definition dataRows (range : range) : list nat :=
  seq (S (s_r range)) (e_r range - s_r range).

Definition rowsToTranslate (worksheet : worksheet) (range : range)
    (sheetName : string) (sourceColIndex targetColIndex : nat) : list item :=
  flat_map (rowAt worksheet sheetName sourceColIndex targetColIndex) (dataRows range).

(** [uniqueTexts.add(original)] on a [Set], which keeps insertion order. *)
Definition setAdd (x : string) (set : list string) : list string :=
  if bool_decide (x ∈ set) then set else set ++ [x].

(** [Array.from(uniqueTexts)] after the extraction loop. *)
Definition uniqueTexts (rows : list item) : list string :=
  fold_left (fun set it => setAdd (Item.original it) set) rows [].

(** ** Numbers: the progress percentage *)

(** [Math.round]: the integer nearest to a finite binary64 value, a tie
    going up. ([NaN] and the infinities are not integers; the job never
    rounds them, see [batchStep].) *)
Definition Math_round (x : float) : Z :=
  match Prim2SF x with
  | S754_finite sign m e =>
      let m' := if sign then Z.neg m else Z.pos m in
      if (0 <=? e)%Z then (m' * 2 ^ e)%Z
      else ((2 * m' + 2 ^ (- e)) / 2 ^ (1 - e))%Z
  | _ => 0%Z
  end.

(** An array length as a number (exact below 2^53). *)
Definition numberOfNat (n : nat) : float :=
  PrimFloat.of_uint63 (Uint63.of_Z (Z.of_nat n)).

(** [Math.round((processedUnique / uniqueList.length) * 100)] *)
Definition progressOf (processedUnique total : nat) : Z :=
  Math_round (numberOfNat processedUnique / numberOfNat total * 100)%float.


(** ** Cleaning the model's answer *)

Definition dquote : string := String (ascii_of_nat 34) EmptyString.
Definition newline : string := String (ascii_of_nat 10) EmptyString.

(** [s.replace(/<think>[\s\S]*?<\/think>/, "")]: the first opening marker
    that a closing marker follows is removed together with everything up to
    the nearest closing marker. *)
Definition stripThink (s : string) : string :=
  match index 0 "<think>" s with
  | Some i =>
      match index (i + 7) "</think>" s with
      | Some j => substring 0 i s +:+ substring (j + 8) (String.length s - (j + 8)) s
      | None => s
      end
  | None => s
  end.

Fixpoint lastIndexOf (ch : ascii) (s : string) : option nat :=
  match s with
  | EmptyString => None
  | String ch' rest =>
      match lastIndexOf ch rest with
      | Some j => Some (S j)
      | None => if Ascii.eqb ch ch' then Some 0 else None
      end
  end.

(** [s.match(/\[[\s\S]*\]/)]: from the first opening bracket to the last
    closing bracket after it. *)
Definition matchArray (s : string) : option string :=
  match index 0 "[" s, lastIndexOf "]" s with
  | Some i, Some j => if i <? j then Some (substring i (j - i + 1) s) else None
  | _, _ => None
  end.

Definition closesAfterSpace (s : string) : bool :=
  match trimStart s with
  | String ch _ => Ascii.eqb ch "}" || Ascii.eqb ch "]"
  | EmptyString => false
  end.

(** [s.replace(/,\s*([}\]])/g, "$1")]: a comma that only white space
    separates from a closing brace or bracket is dropped with that white
    space. [dropping] is set between such a comma and its bracket. *)
Fixpoint dropTrailingCommas (dropping : bool) (s : string) : string :=
  match s with
  | EmptyString => EmptyString
  | String ch rest =>
      if dropping then
        if isWhiteSpace ch then dropTrailingCommas true rest
        else String ch (dropTrailingCommas false rest)
      else if Ascii.eqb ch "," && closesAfterSpace rest then dropTrailingCommas true rest
      else String ch (dropTrailingCommas false rest)
  end.

(** ** The plain object [translationCache]

    [const translationCache = {}] is an ordinary object whose prototype is
    [Object.prototype]. The job assigns to it and reads from it under keys
    it does not choose, so both operations are modelled in full: [[Get]]
    walks the prototype chain, and [[Set]] on the key [__proto__] reaches
    the accessor that [Object.prototype] defines, which replaces the
    prototype when the value is an object or [null] and does nothing
    otherwise. The file is a CommonJS module without a strict-mode
    directive, and no property met on the chain is read-only: an
    assignment never throws. *)

(** The prototype of the cache: [Object.prototype] at first; after an
    assignment to [__proto__], [null] or an object or array of a parsed
    answer, whose own prototype is [Object.prototype] or
    [Array.prototype]. *)
Inductive prototype : Type :=
| ObjectPrototype
| NoPrototype
| ParsedObject (props : list (string * value))
| ParsedArray (items : list value).

Record plainObject : Type := { own : gmap string value; proto : prototype }.

(** [{}] *)
Definition emptyObject : plainObject := {| own := ∅; proto := ObjectPrototype |}.

(** The own property [name] of a parsed object, if it has one. *)
Fixpoint ownEntry (name : string) (props : list (string * value)) : option value :=
  match props with
  | [] => None
  | (k, x) :: rest => if String.eqb k name then Some x else ownEntry name rest
  end.

(** An array index as a property name is the canonical decimal numeral of
    the index: digits only, no leading zero. *)
Definition digitOf (ch : ascii) : option N :=
  let n := N_of_ascii ch in
  if ((48 <=? n) && (n <=? 57))%N then Some (n - 48)%N else None.

Fixpoint decimal (s : string) (acc : N) : option N :=
  match s with
  | EmptyString => Some acc
  | String ch rest =>
      match digitOf ch with
      | Some d => decimal rest (10 * acc + d)%N
      | None => None
      end
  end.

Definition arrayIndex (name : string) : option N :=
  match name with
  | EmptyString => None
  | String ch rest =>
      if Ascii.eqb ch "0" then (if String.eqb rest "" then Some 0%N else None)
      else decimal name 0
  end.

(** The own properties of a parsed array: its elements under their indices,
    and [length]. *)
Definition arrayOwn (items : list value) (name : string) : option value :=
  if String.eqb name "length" then Some (VNum (numberOfNat (length items)))
  else match arrayIndex name with
       | Some i => if (i <? N.of_nat (length items))%N then items !! N.to_nat i else None
       | None => None
       end.

(** The string-keyed properties of [Object.prototype] other than
    [constructor] and the accessor [__proto__], and those of
    [Array.prototype] other than [constructor] and [length] (ECMAScript
    2023). All of them are writable data properties holding functions. *)
Definition objectPrototypeMethods : list string :=
  [ "__defineGetter__"; "__defineSetter__"; "hasOwnProperty"; "__lookupGetter__";
    "__lookupSetter__"; "isPrototypeOf"; "propertyIsEnumerable"; "toString";
    "valueOf"; "toLocaleString" ].

Definition arrayPrototypeMethods : list string :=
  [ "at"; "concat"; "copyWithin"; "fill"; "find"; "findIndex"; "findLast";
    "findLastIndex"; "lastIndexOf"; "pop"; "push"; "reverse"; "shift"; "unshift";
    "slice"; "sort"; "splice"; "includes"; "indexOf"; "join"; "keys"; "entries";
    "values"; "forEach"; "filter"; "flat"; "flatMap"; "map"; "every"; "some";
    "reduce"; "reduceRight"; "toLocaleString"; "toString"; "toReversed";
    "toSorted"; "toSpliced"; "with" ].

(** The value of the prototype, as the getter of [__proto__] returns it. *)
Definition prototypeValue (p : prototype) : jsval :=
  match p with
  | ObjectPrototype => Builtin TheObjectPrototype
  | NoPrototype => Data VNull
  | ParsedObject props => Data (VObj props)
  | ParsedArray items => Data (VArr items)
  end.

(** A read that has come to [Object.prototype], for a receiver whose
    prototype is [p]: the getter of [__proto__] returns the prototype of
    the receiver. *)
Definition fromObjectPrototype (p : prototype) (name : string) : option jsval :=
  if String.eqb name "__proto__" then Some (prototypeValue p)
  else if String.eqb name "constructor" then Some (Builtin ObjectFunction)
  else if existsb (String.eqb name) objectPrototypeMethods
       then Some (Builtin (ObjectPrototypeMethod name))
  else None.

Definition fromArrayPrototype (name : string) : option jsval :=
  if String.eqb name "constructor" then Some (Builtin ArrayFunction)
  else if String.eqb name "length" then Some (Data (VNum 0%float))
  else if existsb (String.eqb name) arrayPrototypeMethods
       then Some (Builtin (ArrayPrototypeMethod name))
  else None.

(** What an object whose prototype is [p] inherits under [name], if
    anything: the chain is walked from [p] on. *)
Definition inherited (p : prototype) (name : string) : option jsval :=
  match p with
  | NoPrototype => None
  | ObjectPrototype => fromObjectPrototype p name
  | ParsedObject props =>
      match ownEntry name props with
      | Some x => Some (Data x)
      | None => fromObjectPrototype p name
      end
  | ParsedArray items =>
      match arrayOwn items name with
      | Some x => Some (Data x)
      | None =>
          match fromArrayPrototype name with
          | Some x => Some x
          | None => fromObjectPrototype p name
          end
      end
  end.

(** [object[name]] *)
Definition OrdinaryGet (object : plainObject) (name : string) : jsval :=
  match own object !! name with
  | Some x => Data x
  | None => default (Data VUndefined) (inherited (proto object) name)
  end.

(** Whether an assignment to [name] ends in the [__proto__] setter: the
    name is [__proto__] and neither the object nor an object on its chain
    before [Object.prototype] has a property of that name. *)
Definition reachesProtoSetter (object : plainObject) (name : string) : bool :=
  String.eqb name "__proto__"
  && match own object !! name with
     | Some _ => false
     | None =>
         match proto object with
         | ObjectPrototype | ParsedArray _ => true
         | ParsedObject props =>
             match ownEntry name props with Some _ => false | None => true end
         | NoPrototype => false
         end
     end.

(** [object[name] = x]. Every property met on the chain except
    [__proto__] is a writable data property, so the assignment creates or
    updates an own property; the setter of [__proto__] replaces the
    prototype when [x] is an object or [null]. *)
Definition OrdinarySet (object : plainObject) (name : string) (x : value) : plainObject :=
  if reachesProtoSetter object name then
    match x with
    | VObj props => {| own := own object; proto := ParsedObject props |}
    | VArr items => {| own := own object; proto := ParsedArray items |}
    | VNull => {| own := own object; proto := NoPrototype |}
    | _ => object
    end
  else {| own := <[name := x]> (own object); proto := proto object |}.

(** ** The job *)

(** What the row of the jobs table looks like to [processFile]:
    [{ data: job, error }] of the [select("custom_comments")] query. *)
Record selectResult : Type :=
  { data : option (option string);   (* the row, and its custom_comments *)
    error : option string }.         (* error.message *)

(** The collaborators of a job. [sendMessage n prompt] is the answer of the
    [n]-th chat session of the run ([startChat] followed by [sendMessage]);
    [download name] is [file.download()] followed by [XLSX.read]; [save] is
    [XLSX.write] followed by [processedFile.save]. Any of them may throw. *)
Record environment : Type :=
  { jobs_select : string -> selectResult;
    download : string -> completion workbook;
    sendMessage : nat -> string -> completion string;
    JSON_parse : string -> completion value;
    save : string -> workbook -> completion unit;
    getSignedUrl : string -> completion string }.

(** What a run does to the world, in order. *)
Inductive event : Type :=
| SendMessage (prompt : string)
| UpdateProgress (jobId : string) (progress : Z)
| Save (name : string) (content : workbook)
| UpdateStatus (jobId : string) (status : string) (processed_file_url : option string)
| Respond (code : nat).

Definition batchSize : nat := 100.

Definition slice {A : Type} (start stop : nat) (l : list A) : list A :=
  firstn (stop - start) (skipn start l).

(** The prompt of one batch. *)
Definition promptLines (customHeader : string) : list string :=
  [ "Translate the lines of text after delimiter " +:+ dquote +:+ "-->" +:+ dquote
      +:+ " to Norwegian." +:+ customHeader +:+ ".";
    "Respond with a JSON array where each entry is an object with two keys:";
    "  " +:+ dquote +:+ "key" +:+ dquote +:+ ": the original text exactly as provided,";
    "  " +:+ dquote +:+ "value" +:+ dquote +:+ ": the Norwegian translation.";
    "For example, if the input is:";
    "Select...";
    "New";
    "The output should be:";
    "[";
    "  {" +:+ dquote +:+ "key" +:+ dquote +:+ ": " +:+ dquote +:+ "Select..." +:+ dquote
      +:+ ", " +:+ dquote +:+ "value" +:+ dquote +:+ ": " +:+ dquote +:+ "Velg..."
      +:+ dquote +:+ "},";
    "  {" +:+ dquote +:+ "key" +:+ dquote +:+ ": " +:+ dquote +:+ "New" +:+ dquote
      +:+ ", " +:+ dquote +:+ "value" +:+ dquote +:+ ": " +:+ dquote +:+ "Nytt"
      +:+ dquote +:+ "}";
    "]";
    "Do not output any additional text.";
    "Here are the strings -->" ].

Definition buildPrompt (customHeader : string) (batch : list string) : string :=
  join newline (promptLines customHeader) +:+ newline +:+ join newline batch.

(** [translationCache[key] = value] for every element of the answer, in
    order; [translationObj.key.trim()] throws where it is not defined. *)
Fixpoint updateCache (translatedBatch : list value) (translationCache : plainObject)
  : completion plainObject :=
  match translatedBatch with
  | [] => Normal translationCache
  | translationObj :: rest =>
      match getProp translationObj "key" with
      | Throw message => Throw message
      | Normal k =>
          match callTrim k, getProp translationObj "value" with
          | Normal key, Normal val => updateCache rest (OrdinarySet translationCache key val)
          | Throw message, _ | _, Throw message => Throw message
          end
      end
  end.

(** [batch.forEach((original) => { translationCache[original] = ""; })] *)
Definition markEmpty (batch : list string) (translationCache : plainObject)
  : plainObject :=
  fold_left (fun cache original => OrdinarySet cache original (VStr "")) batch
    translationCache.

(** Step 3: [item.translated = translationCache[item.original] || ""]. *)
Definition assignTranslation (translationCache : plainObject) (it : item) : item :=
  {| Item.sheetName := Item.sheetName it; Item.row := Item.row it;
     Item.original := Item.original it; Item.targetColIndex := Item.targetColIndex it;
     Item.translated :=
       or_else (OrdinaryGet translationCache (Item.original it)) (VStr "") |}.

(** Step 4, for one item: [ws[ref] = { t: "s", v: item.translated || "" }]
    on the sheet the item names, nothing when the workbook has no such sheet. *)
Definition writeItem (book : workbook) (it : item) : workbook :=
  match Sheets book !! Item.sheetName it with
  | None => book
  | Some ws =>
      let written := {| t := "s"; v := or_else (Item.translated it) (VStr "") |} in
      {| SheetNames := SheetNames book;
         Sheets :=
           <[Item.sheetName it :=
               {| ref := ref ws;
                  cells := <[(Item.targetColIndex it, Item.row it) := written]> (cells ws) |}]>
             (Sheets book) |}
  end.

(** Steps 3 and 4 of [processFile]: the writer. *)
Definition writer (translationCache : plainObject) (rows : list item)
    (book : workbook) : workbook :=
  fold_left writeItem (map (assignTranslation translationCache) rows) book.

(** The state of the translation loop of step 2: the cache and the events
    so far. *)
Record loopState : Type :=
  { translationCache : plainObject; log : list event }.

(** How an iteration, or the whole loop, ends: normally, or by an exception
    that leaves [processFile]. *)
Inductive loopResult : Type :=
| Next (st : loopState)
| Aborted (message : string) (st : loopState).

(** A finished call of [processFile]: the signed URL it resolves to or the
    error it rejects with, and what it did. *)
Record jobRun : Type := { outcome : completion string; events : list event }.

Section Pipeline.

Variable env : environment.

(** [translateBatch(prompt)] for the [callNo]-th request of the run. *)
Definition translateBatch (callNo : nat) (prompt : string) : completion (list value) :=
  match sendMessage env callNo prompt with
  | Throw message => Throw message
  | Normal rawOutput =>
      let cleanedOutput := trim (stripThink rawOutput) in
      match matchArray cleanedOutput with
      | None => Throw ("Failed to extract JSON array from output: " +:+ cleanedOutput)
      | Some matched =>
          let jsonString := dropTrailingCommas false matched in
          match JSON_parse env jsonString with
          | Throw message => Throw ("Failed to parse JSON output: " +:+ message)
          | Normal (VArr jsonOutput) => Normal jsonOutput
          | Normal _ => Throw "JSON output is not an array"
          end
      end
  end.

Section Loop.

Variables (jobId customHeader : string) (uniqueList : list string).

(** The body of [for (let i = 0; i < uniqueList.length; i += batchSize)].
    The [catch] block ends in [continue]; the update of the cache and the
    progress report follow the [try] statement. *)
Definition batchStep (i : nat) (st : loopState) : loopResult :=
  let batch := slice i (i + batchSize) uniqueList in
  let prompt := buildPrompt customHeader batch in
  let sent := log st ++ [SendMessage prompt] in
  match translateBatch (i / batchSize) prompt with
  | Throw _ =>
      Next {| translationCache := markEmpty batch (translationCache st); log := sent |}
  | Normal translatedBatch =>
      match updateCache translatedBatch (translationCache st) with
      | Throw message =>
          Aborted message {| translationCache := translationCache st; log := sent |}
      | Normal cache =>
          let processedUnique := Nat.min (length uniqueList) (i + batchSize) in
          let progress := progressOf processedUnique (length uniqueList) in
          Next {| translationCache := cache; log := sent ++ [UpdateProgress jobId progress] |}
      end
  end.

Equations? translateLoop (i : nat) (st : loopState) : loopResult
  by wf (length uniqueList - i) lt :=
  translateLoop i st with decide (i < length uniqueList) := {
    | right _ => Next st;
    | left _ with batchStep i st := {
        | Next st' => translateLoop (i + batchSize) st';
        | Aborted message st' => Aborted message st' } }.
Proof. unfold batchSize. lia. Qed.

End Loop.

Definition thrown (message : string) (done : list event) : jobRun :=
  {| outcome := Throw message; events := done |}.

(** [customHeader]: the instruction line built from [job.custom_comments],
    empty when the row or the comment is missing or empty. *)
Definition customHeaderOf (selected : selectResult) : string :=
  let customComments := match data selected with Some (Some c) => c | _ => "" end in
  if String.eqb customComments "" then ""
  else newline +:+ "Additional instructions: " +:+ customComments.

(** [workbook.Sheets[workbook.SheetNames[0]]] and its decoded range, when the
    guard [!worksheet || !worksheet["!ref"]] lets the job through. *)
Definition firstSheet (book : workbook) : option (string * worksheet * range) :=
  match head (SheetNames book) with
  | Some sheetName =>
      match Sheets book !! sheetName with
      | Some worksheet =>
          match ref worksheet with
          | Some range => Some (sheetName, worksheet, range)
          | None => None
          end
      | None => None
      end
  | None => None
  end.

(** Step 1: the rows of the detected source column. *)
Definition extractRows (sheetName : string) (worksheet : worksheet) (range : range)
  : list item :=
  let columns := resolveColumnsForSingleSheet worksheet in
  rowsToTranslate worksheet range sheetName (sourceColIndex columns) (targetColIndex columns).

Definition startState : loopState := {| translationCache := emptyObject; log := [] |}.

(** [processFile(fileUrl, jobId)] *)
Definition processFile (fileUrl jobId : string) : jobRun :=
  let fileName := lastSegment fileUrl in
  let selected := jobs_select env jobId in
  match error selected with
  | Some message => thrown message []
  | None =>
  let customHeader := customHeaderOf selected in
  match download env fileName with
  | Throw message => thrown message []
  | Normal book =>
  match firstSheet book with
  | None => thrown "No data range found in the first sheet." []
  | Some (sheetName, worksheet, range) =>
  let rows := extractRows sheetName worksheet range in
  let uniqueList := uniqueTexts rows in
  match translateLoop jobId customHeader uniqueList 0 startState with
  | Aborted message st => thrown message (log st)
  | Next st =>
  let written := writer (translationCache st) rows book in
  let processedFileName := "processed-" +:+ fileName in
  match save env processedFileName written with
  | Throw message => thrown message (log st)
  | Normal _ =>
  let saved := log st ++ [Save processedFileName written] in
  match getSignedUrl env processedFileName with
  | Throw message => thrown message saved
  | Normal signedUrl => {| outcome := Normal signedUrl; events := saved |}
  end end end end end end.

(** The handler of [POST /process-file] in [server.js], past the
    authentication middleware: the request body may lack either field. *)
Definition postProcessFile (fileUrl jobId : option string) : list event :=
  match fileUrl, jobId with
  | Some fileUrl, Some jobId =>
      if String.eqb fileUrl "" || String.eqb jobId "" then [Respond 400]
      else
        let run := processFile fileUrl jobId in
        [UpdateStatus jobId "processing" None; Respond 202]
        ++ events run
        ++ [ match outcome run with
             | Normal processedFileUrl => UpdateStatus jobId "completed" (Some processedFileUrl)
             | Throw _ => UpdateStatus jobId "error" None
             end ]
  | _, _ => [Respond 400]
  end.

End Pipeline.

(** ** The endpoint of [server.js] *)

(** [process.env.API_KEY || "your-secret-api-key"]: the key the server
    expects, given what the environment variable holds. *)
Definition API_KEY (configured : option string) : string :=
  match configured with
  | Some key => if String.eqb key "" then "your-secret-api-key" else key
  | None => "your-secret-api-key"
  end.

(** The middleware [authenticate], given the [x-api-key] header of the
    request: [true] when it calls [next()], [false] when it answers 401. *)
Definition authenticate (expected : string) (key : option string) : bool :=
  match key with
  | Some key => negb (String.eqb key "") && String.eqb key expected
  | None => false
  end.

(** [app.post("/process-file", authenticate, handler)] *)
Definition processFileEndpoint (env : environment) (configured key : option string)
    (fileUrl jobId : option string) : list event :=
  if authenticate (API_KEY configured) key then postProcessFile env fileUrl jobId
  else [Respond 401].

(** * Vocabulary of the specification *)

(** A row qualifies when the cell at the source column exists, is of text
    type and its trimmed value is not empty; [original] is that value. *)
Definition Qualifies (worksheet : worksheet) (sourceColIndex r : nat) (original : string)
  : Prop :=
  ∃ cell raw,
    getCell worksheet sourceColIndex r = Some cell ∧ t cell = "s" ∧ v cell = VStr raw
    ∧ trim raw ≠ "" ∧ original = trim raw.

(** The header row as the specification sees it: for every column of the
    declared range, left to right, the text of the header cell when it
    holds a string. *)
Definition headerText (worksheet : worksheet) (headerRow c : nat) : option (nat * string) :=
  match getCell worksheet c headerRow with
  | Some {| v := Data (VStr x) |} => Some (c, x)
  | _ => None
  end.

Definition headerTexts (worksheet : worksheet) (range : range) : list (nat * string) :=
  omap (headerText worksheet (s_r range)) (seq (s_c range) (S (e_c range) - s_c range)).

(** The header cells whose text is not blank. *)
Definition nonBlank (h : nat * string) : Prop := trim (snd h) ≠ "".

(** [x] is the first element of [l] with property [P]; [l] has none. *)
Definition firstHit {A : Type} (P : A -> Prop) (l : list A) (x : A) : Prop :=
  ∃ before after, l = before ++ x :: after ∧ P x ∧ ∀ y, y ∈ before → ¬ P y.

Definition noHit {A : Type} (P : A -> Prop) (l : list A) : Prop :=
  ∀ y, y ∈ l → ¬ P y.

(** The trimmed text of the header equals the candidate, letter case apart. *)
Definition exactMatch (x : string) (h : nat * string) : Prop :=
  toLowerCase (trim (snd h)) = toLowerCase x.

(** The pattern accepts the header text in its own letter case; [subject]
    says which text that is: the text as it stands in the cell, or the text
    trimmed. *)
Definition patternMatch (subject : string -> string) (re : RegExp) (h : nat * string)
  : Prop :=
  re (subject (snd h)) = true.

Definition asStored (raw : string) : string := raw.

(** Column resolution in the words of the specification, over the headers
    [hs]: the first string candidate (in priority order) that some header
    matches decides, by the leftmost such header; when no string candidate
    matches, the first pattern candidate that some header matches decides
    likewise; otherwise there is no column and the default applies. *)
Inductive Resolution (subject : string -> string) (hs : list (nat * string))
    (candidates : list candidate) : option nat -> Prop :=
| ByExact before x after h :
    candidates = before ++ CString x :: after →
    (∀ y, CString y ∈ before → noHit (exactMatch y) hs) →
    firstHit (exactMatch x) hs h →
    Resolution subject hs candidates (Some (fst h))
| ByPattern before re after h :
    (∀ y, CString y ∈ candidates → noHit (exactMatch y) hs) →
    candidates = before ++ CRegExp re :: after →
    (∀ re', CRegExp re' ∈ before → noHit (patternMatch subject re') hs) →
    firstHit (patternMatch subject re) hs h →
    Resolution subject hs candidates (Some (fst h))
| ByDefault :
    (∀ y, CString y ∈ candidates → noHit (exactMatch y) hs) →
    (∀ re, CRegExp re ∈ candidates → noHit (patternMatch subject re) hs) →
    Resolution subject hs candidates None.

(** The entry of [headers] that the code builds for a non-blank header. *)
Definition headerOf (h : nat * string) : header :=
  {| text := trim (snd h); lower := toLowerCase (trim (snd h)); col := fst h |}.

(** The last item of a list that writes the cell [key] of the sheet [name]:
    the one whose write is still visible after the writer ran. *)
Fixpoint lastWrite (name : string) (key : nat * nat) (items : list item) : option item :=
  match items with
  | [] => None
  | it :: rest =>
      match lastWrite name key rest with
      | Some later => Some later
      | None =>
          if decide (Item.sheetName it = name
                     ∧ (Item.targetColIndex it, Item.row it) = key)
          then Some it else None
      end
  end.

(** The cell [key] of the sheet [name] of a workbook, when both exist. *)
Definition cellOfBook (book : workbook) (name : string) (key : nat * nat) : option cell :=
  Sheets book !! name ≫= fun ws => cells ws !! key.

(** The ways a batch translation fails: the service call rejects, the
    answer holds no JSON array, the array text is malformed, or the parsed
    value is not an array. *)
Inductive BatchFailure (env : environment) (callNo : nat) (prompt : string) : Prop :=
| ServiceError message :
    sendMessage env callNo prompt = Throw message →
    BatchFailure env callNo prompt
| NoArrayFound rawOutput :
    sendMessage env callNo prompt = Normal rawOutput →
    matchArray (trim (stripThink rawOutput)) = None →
    BatchFailure env callNo prompt
| MalformedJSON rawOutput matched message :
    sendMessage env callNo prompt = Normal rawOutput →
    matchArray (trim (stripThink rawOutput)) = Some matched →
    JSON_parse env (dropTrailingCommas false matched) = Throw message →
    BatchFailure env callNo prompt
| NotAnArray rawOutput matched parsed :
    sendMessage env callNo prompt = Normal rawOutput →
    matchArray (trim (stripThink rawOutput)) = Some matched →
    JSON_parse env (dropTrailingCommas false matched) = Normal parsed →
    (∀ items, parsed ≠ VArr items) →
    BatchFailure env callNo prompt.

(** The [key] field of an element of the answer is not a string: the
    element is not an object, lacks the field, or holds something else. *)
Definition KeyNotString (translationObj : value) : Prop :=
  ∀ s, getProp translationObj "key" ≠ Normal (VStr s).

(** The prompts sent, and the progress values reported, in order. *)
Definition requests (evs : list event) : list string :=
  omap (fun ev => match ev with SendMessage prompt => Some prompt | _ => None end) evs.

Definition progressReports (evs : list event) : list Z :=
  omap (fun ev => match ev with UpdateProgress _ progress => Some progress | _ => None end) evs.

(** The [k]-th batch of the unique strings. *)
Definition batchAt (uniqueList : list string) (k : nat) : list string :=
  slice (k * batchSize) (k * batchSize + batchSize) uniqueList.

(** The ways the [k]-th request can give the string [s] an entry in the
    cache: [s] is a string of the batch and the translation failed, or [s]
    is the trimmed [key] of an element of the returned array. *)
Definition contributes (env : environment) (customHeader : string)
    (uniqueList : list string) (k : nat) (s : string) : Prop :=
  match translateBatch env k (buildPrompt customHeader (batchAt uniqueList k)) with
  | Throw _ => s ∈ batchAt uniqueList k
  | Normal translatedBatch =>
      ∃ translationObj raw,
        translationObj ∈ translatedBatch
        ∧ getProp translationObj "key" = Normal (VStr raw) ∧ trim raw = s
  end.

(** The two ways of [contributes], apart: the [k]-th batch failed and holds
    [s]; the [k]-th answer was parsed and one of its elements has the
    trimmed [key] [s]. *)
Definition inFailedBatch (env : environment) (customHeader : string)
    (uniqueList : list string) (k : nat) (s : string) : Prop :=
  (∃ message,
     translateBatch env k (buildPrompt customHeader (batchAt uniqueList k)) = Throw message)
  ∧ s ∈ batchAt uniqueList k.

Definition namedByAnswer (env : environment) (customHeader : string)
    (uniqueList : list string) (k : nat) (s : string) : Prop :=
  ∃ translatedBatch translationObj raw,
    translateBatch env k (buildPrompt customHeader (batchAt uniqueList k))
    = Normal translatedBatch
    ∧ translationObj ∈ translatedBatch
    ∧ getProp translationObj "key" = Normal (VStr raw) ∧ trim raw = s.

(** The cache still has the prototype it was created with and no property
    of its own named [__proto__]. *)
Definition untouchedPrototype (object : plainObject) : Prop :=
  proto object = ObjectPrototype ∧ own object !! "__proto__" = None.

(** * Sample jobs *)

Definition textCell (s : string) : cell := {| t := "s"; v := VStr s |}.

(** The sheet of the scenario of the specification: a header row and three
    data rows, two of which hold the same text. *)
Definition sampleRange : range := {| s_c := 0; s_r := 0; e_c := 3; e_r := 3 |}.

Definition sampleSheet : worksheet :=
  {| ref := Some sampleRange;
     cells := list_to_map
       [ ((0, 0), textCell "ID"); ((1, 0), textCell "Field Value");
         ((2, 0), textCell "X"); ((3, 0), textCell "Translated string (nb)");
         ((0, 1), textCell "1"); ((1, 1), textCell "Hello");
         ((0, 2), textCell "2"); ((1, 2), textCell "Hello");
         ((0, 3), textCell "3"); ((1, 3), textCell "Bye") ] |}.

Definition sampleBook : workbook :=
  {| SheetNames := ["Sheet1"]; Sheets := {[ "Sheet1" := sampleSheet ]} |}.

(** A sheet whose only header cell is a blank. *)
Definition blankRange : range := {| s_c := 0; s_r := 0; e_c := 0; e_r := 0 |}.

Definition blankHeaderSheet : worksheet :=
  {| ref := Some blankRange; cells := {[ (0, 0) := textCell " " ]} |}.

(** A sheet whose target header starts with a space. *)
Definition paddedRange : range := {| s_c := 0; s_r := 0; e_c := 2; e_r := 0 |}.

Definition paddedHeaderSheet : worksheet :=
  {| ref := Some paddedRange;
     cells := list_to_map
       [ ((0, 0), textCell "ID"); ((1, 0), textCell "Text");
         ((2, 0), textCell " Translated string (nb)") ] |}.

(** A sheet whose source column holds, below a common word, two names that
    every plain object inherits from [Object.prototype]. *)
Definition inheritedNamesSheet : worksheet :=
  {| ref := Some sampleRange;
     cells := list_to_map
       [ ((0, 0), textCell "ID"); ((1, 0), textCell "Field Value");
         ((2, 0), textCell "X"); ((3, 0), textCell "Translated string (nb)");
         ((0, 1), textCell "1"); ((1, 1), textCell "Hello");
         ((0, 2), textCell "2"); ((1, 2), textCell "constructor");
         ((0, 3), textCell "3"); ((1, 3), textCell "__proto__") ] |}.

Definition inheritedNamesBook : workbook :=
  {| SheetNames := ["Sheet1"]; Sheets := {[ "Sheet1" := inheritedNamesSheet ]} |}.

(** A workbook whose first sheet declares no range. *)
Definition rangelessBook : workbook :=
  {| SheetNames := ["Sheet1"];
     Sheets := {[ "Sheet1" := {| ref := None; cells := cells sampleSheet |} ]} |}.

(** A sheet with [n] different texts in column B under the header "Text". *)
Definition numberedText (r : nat) : string := string_of_list_ascii (repeat "x"%char r).

Definition longSheet (n : nat) : worksheet :=
  {| ref := Some {| s_c := 0; s_r := 0; e_c := 1; e_r := n |};
     cells := list_to_map
       (((1, 0), textCell "Text")
        :: map (fun r => ((1, r), textCell (numberedText r))) (seq 1 n)) |}.

Definition longBook (n : nat) : workbook :=
  {| SheetNames := ["Sheet1"]; Sheets := {[ "Sheet1" := longSheet n ]} |}.

(** Collaborators: a job row without comments, a storage that serves [book]
    and accepts the result, a chat model answering by [answer], and a
    stand-in for [JSON.parse] that knows the array texts of [parses]. *)
Definition parseTable (parses : list (string * value)) (jsonString : string)
  : completion value :=
  match List.find (fun entry => String.eqb (fst entry) jsonString) parses with
  | Some entry => Normal (snd entry)
  | None => Throw "Unexpected token"
  end.

Definition sampleEnv (book : workbook) (answer : nat -> string -> completion string)
    (parses : list (string * value)) : environment :=
  {| jobs_select := fun _ => {| data := Some None; error := None |};
     download := fun _ => Normal book;
     sendMessage := answer;
     JSON_parse := parseTable parses;
     save := fun _ _ => Normal tt;
     getSignedUrl := fun name => Normal ("https://storage.example/" +:+ name) |}.

(** The model is unreachable: every call rejects. *)
Definition serviceDown : nat -> string -> completion string :=
  fun _ _ => Throw "503 Service Unavailable".

(** The model answers with an empty array. *)
Definition emptyAnswer : nat -> string -> completion string :=
  fun _ _ => Normal "Here you go: []".

(** The model answers with an array of bare strings. *)
Definition bareAnswer : nat -> string -> completion string :=
  fun _ _ => Normal "[Hei, Ha det]".

Definition bareParse : list (string * value) :=
  [("[Hei, Ha det]", VArr [VStr "Hei"; VStr "Ha det"])].

(** The first call is answered (with an empty array), every later one
    rejects. *)
Definition firstCallOnly : nat -> string -> completion string :=
  fun callNo _ => if callNo =? 0 then Normal "[]" else Throw "503 Service Unavailable".

Definition emptyParse : list (string * value) := [("[]", VArr [])].

Definition sampleUrl : string := "https://storage.example/uploads/terms.xlsx".

(** The state a loop ends in, however it ends. *)
Definition finalState (r : loopResult) : loopState :=
  match r with Next st | Aborted _ st => st end.

(** * Vocabulary of the further properties *)

(** The number of iterations of the batch loop over [n] unique strings:
    [n / batchSize], rounded up. *)
Definition batchCount (n : nat) : nat := (n + (batchSize - 1)) / batchSize.

(** What the [k]-th iteration adds to the event log when it completes: the
    request, and the progress report unless the translation failed. *)
Definition batchEvents (env : environment) (jobId customHeader : string)
    (uniqueList : list string) (k : nat) : list event :=
  let prompt := buildPrompt customHeader (batchAt uniqueList k) in
  SendMessage prompt
  :: match translateBatch env k prompt with
     | Normal _ =>
         [UpdateProgress jobId
            (progressOf (Nat.min (length uniqueList) (k * batchSize + batchSize))
               (length uniqueList))]
     | Throw _ => []
     end.

(** The value an answer gives for the text [s]: that of its last element
    whose [key], trimmed, is [s]. *)
Fixpoint lastNamed (s : string) (translatedBatch : list value) : option value :=
  match translatedBatch with
  | [] => None
  | translationObj :: rest =>
      match lastNamed s rest with
      | Some later => Some later
      | None =>
          match translationObj with
          | VObj props =>
              match ownProp "key" props with
              | VStr raw =>
                  if String.eqb (trim raw) s then Some (ownProp "value" props) else None
              | _ => None
              end
          | _ => None
          end
      end
  end.

(** The events of the batch loop: requests and progress reports. *)
Definition isLoopEvent (ev : event) : Prop :=
  match ev with
  | SendMessage _ | UpdateProgress _ _ => True
  | _ => False
  end.

(** The status updates and the HTTP responses among the events, in order. *)
Definition statusUpdates (evs : list event) : list (string * string * option string) :=
  omap (fun ev => match ev with
                  | UpdateStatus jobId status url => Some (jobId, status, url)
                  | _ => None
                  end) evs.

Definition responses (evs : list event) : list nat :=
  omap (fun ev => match ev with Respond code => Some code | _ => None end) evs.

(** The workbooks saved, with their object names, in order. *)
Definition saves (evs : list event) : list (string * workbook) :=
  omap (fun ev => match ev with Save name content => Some (name, content) | _ => None end)
    evs.

(** A sheet that has its header row only. *)
Definition headerOnlySheet : worksheet :=
  {| ref := Some {| s_c := 0; s_r := 0; e_c := 3; e_r := 0 |};
     cells := list_to_map
       [ ((0, 0), textCell "ID"); ((1, 0), textCell "Field Value");
         ((2, 0), textCell "X"); ((3, 0), textCell "Translated string (nb)") ] |}.

Definition headerOnlyBook : workbook :=
  {| SheetNames := ["Sheet1"]; Sheets := {[ "Sheet1" := headerOnlySheet ]} |}.

(** The model answers the sample job well, one key padded with spaces. *)
Definition goodAnswer : nat -> string -> completion string :=
  fun _ _ => Normal "<think>two lines</think>Sure: [Hello=Hei, Bye=Ha det] Done.".

Definition goodParse : list (string * value) :=
  [("[Hello=Hei, Bye=Ha det]",
    VArr [ VObj [("key", VStr "Hello"); ("value", VStr "Hei")];
           VObj [("key", VStr " Bye "); ("value", VStr "Ha det")] ])].

(** A text without its commas and white space. *)
Fixpoint withoutCommasAndSpace (s : string) : string :=
  match s with
  | EmptyString => EmptyString
  | String ch rest =>
      if Ascii.eqb ch "," || isWhiteSpace ch then withoutCommasAndSpace rest
      else String ch (withoutCommasAndSpace rest)
  end.

(** * Properties *)

(** ** Row extraction *)

Lemma sourceText_Qualifies worksheet sourceColIndex r original :
  sourceText (getCell worksheet sourceColIndex r) = Some original
  ↔ Qualifies worksheet sourceColIndex r original.
Proof.
  unfold Qualifies, sourceText. split.
  - destruct (getCell _ _ _) as [[ty [val|]]|]; [|discriminate..].
    destruct val; try discriminate.
    destruct (String.eqb_spec ty "s") as [->|]; [|discriminate]. simpl.
    destruct (String.eqb_spec (trim s) ""); [discriminate|].
    intros [= <-]. eexists _, _. repeat split; eauto.
  - intros (cell & raw & -> & Ht & Hv & Hne & ->).
    destruct cell as [ty val]; simpl in *; subst.
    rewrite String.eqb_refl. simpl.
    destruct (String.eqb_spec (trim raw) ""); simpl; [contradiction|reflexivity].
Qed.

Lemma rowAt_elem worksheet sheetName src tgt r it :
  it ∈ rowAt worksheet sheetName src tgt r
  ↔ sourceText (getCell worksheet src r) = Some (Item.original it)
    ∧ it = {| Item.sheetName := sheetName; Item.row := r;
              Item.original := Item.original it; Item.targetColIndex := tgt;
              Item.translated := VUndefined |}.
Proof.
  unfold rowAt. destruct (sourceText _) as [x|].
  - rewrite list_elem_of_singleton. split.
    + intros ->. simpl. done.
    + intros [[= ->] ->]. done.
  - split; [by intros ?%not_elem_of_nil | by intros [? _]].
Qed.

Lemma rows_of_seq worksheet sheetName src tgt first count :
  let rows := flat_map (rowAt worksheet sheetName src tgt) (seq first count) in
  StronglySorted lt (map Item.row rows)
  ∧ Forall (fun it => first ≤ Item.row it < first + count) rows.
Proof.
  revert first. induction count as [|count IH]; intros first; simpl.
  - split; constructor.
  - destruct (IH (S first)) as [Hsorted Hbound]. simpl in *.
    assert (Hrest : Forall (fun it => first < Item.row it
                                     ∧ first ≤ Item.row it < first + S count)
              (flat_map (rowAt worksheet sheetName src tgt) (seq (S first) count))).
    { eapply Forall_impl; [exact Hbound|]. simpl. intros; lia. }
    unfold rowAt at 1 3. destruct (sourceText _) as [x|]; simpl.
    + split.
      * constructor; [exact Hsorted|].
        apply Forall_map. eapply Forall_impl; [exact Hrest|]. simpl. tauto.
      * constructor; [simpl; lia|].
        eapply Forall_impl; [exact Hrest|]. simpl. tauto.
    + split; [exact Hsorted|].
      eapply Forall_impl; [exact Hrest|]. simpl. tauto.
Qed.

(** C6. The row extractor visits the rows from the one after the header to
    the last declared row and yields, in increasing row order, exactly one
    item for each of them whose source cell exists, is of text type and has
    a non-empty trimmed value; it is a total function, so no row is an error. *)
Theorem extractor_yields_one_item_per_qualifying_row
    worksheet range sheetName src tgt :
  let rows := rowsToTranslate worksheet range sheetName src tgt in
  StronglySorted lt (map Item.row rows)
  ∧ (∀ r x, (∃ it, it ∈ rows ∧ Item.row it = r ∧ Item.original it = x)
            ↔ (s_r range < r ≤ e_r range ∧ Qualifies worksheet src r x))
  ∧ Forall (fun it => Item.sheetName it = sheetName ∧ Item.targetColIndex it = tgt) rows.
Proof.
  unfold rowsToTranslate, dataRows. split; [apply rows_of_seq|]. split.
  - intros r x. rewrite <- sourceText_Qualifies. split.
    + intros (it & Hin & <- & <-).
      apply list_elem_of_In, in_flat_map in Hin as (r & Hr & Hit).
      apply list_elem_of_In, rowAt_elem in Hit as [Hsrc Heq].
      apply in_seq in Hr. rewrite Heq. simpl. split; [lia|exact Hsrc].
    + intros [Hr Hsrc].
      exists {| Item.sheetName := sheetName; Item.row := r; Item.original := x;
                Item.targetColIndex := tgt; Item.translated := VUndefined |}.
      split; [|done].
      apply list_elem_of_In, in_flat_map. exists r. split.
      * apply in_seq. lia.
      * apply list_elem_of_In, rowAt_elem. done.
  - apply Forall_forall. intros it Hin.
    apply list_elem_of_In, in_flat_map in Hin as (r & _ & Hit).
    apply list_elem_of_In, rowAt_elem in Hit as [_ ->]. done.
Qed.

(** ** Column detection *)

Lemma find_firstHit {A : Type} (p : A -> bool) (l : list A) :
  match List.find p l with
  | Some x => firstHit (fun y => p y = true) l x
  | None => noHit (fun y => p y = true) l
  end.
Proof.
  induction l as [|a l IH]; simpl.
  - intros y Hy. by apply not_elem_of_nil in Hy.
  - destruct (p a) eqn:Hpa.
    + exists [], l. split; [done|]. split; [done|].
      intros y Hy. by apply not_elem_of_nil in Hy.
    + destruct (List.find p l) as [x|].
      * destruct IH as (before & after & -> & Hx & Hbefore).
        exists (a :: before), after. split; [done|]. split; [done|].
        intros y [->|Hy]%elem_of_cons; [congruence|by apply Hbefore].
      * intros y [->|Hy]%elem_of_cons; [congruence|by apply IH].
Qed.

Lemma collectHeaders_headerTexts worksheet range :
  collectHeaders worksheet range
  = map headerOf (filter nonBlank (headerTexts worksheet range)).
Proof.
  unfold collectHeaders, headerTexts.
  induction (seq (s_c range) (S (e_c range) - s_c range)) as [|c cs IH]; [done|].
  simpl. rewrite IH. unfold headerAt, headerText.
  destruct (getCell worksheet c (s_r range)) as [[ty [val|]]|]; [|done..].
  destruct val; try done.
  rewrite filter_cons. unfold nonBlank at 1. simpl.
  destruct (String.eqb_spec (trim s) "") as [Heq|Hne].
  - rewrite decide_False; [done|]. intros Hn. by apply Hn.
  - rewrite decide_True; done.
Qed.

Lemma firstHit_map {A B : Type} (f : A -> B) (P : B -> Prop) (l : list A) (y : B) :
  firstHit P (map f l) y → ∃ x, y = f x ∧ firstHit (fun a => P (f a)) l x.
Proof.
  intros (before & after & Heq & Hy & Hbefore).
  apply map_eq_app in Heq as (l1 & l2 & -> & <- & Heq).
  apply map_eq_cons in Heq as (x & l3 & -> & <- & <-).
  exists x. split; [done|]. exists l1, l3. split; [done|]. split; [done|].
  intros a Ha. apply Hbefore. apply list_elem_of_fmap. eauto.
Qed.

Lemma noHit_map {A B : Type} (f : A -> B) (P : B -> Prop) (l : list A) :
  noHit P (map f l) → noHit (fun a => P (f a)) l.
Proof. intros H a Ha. apply H, list_elem_of_fmap. eauto. Qed.

Lemma firstHit_iff {A : Type} (P Q : A -> Prop) (l : list A) (x : A) :
  (∀ a, P a ↔ Q a) → firstHit P l x → firstHit Q l x.
Proof.
  intros HPQ (before & after & -> & Hx & Hbefore).
  exists before, after. split; [done|]. split; [by apply HPQ|].
  intros y Hy HQ. apply (Hbefore y Hy). by apply HPQ.
Qed.

Lemma noHit_iff {A : Type} (P Q : A -> Prop) (l : list A) :
  (∀ a, P a ↔ Q a) → noHit P l → noHit Q l.
Proof. intros HPQ H y Hy HQ. apply (H y Hy). by apply HPQ. Qed.

Lemma find_exact hs x :
  match List.find (fun h => String.eqb (lower h) (toLowerCase x)) (map headerOf hs) with
  | Some hit => ∃ h, hit = headerOf h ∧ firstHit (exactMatch x) hs h
  | None => noHit (exactMatch x) hs
  end.
Proof.
  pose proof (find_firstHit (fun h => String.eqb (lower h) (toLowerCase x))
                (map headerOf hs)) as H.
  destruct (List.find _ _) as [hit|].
  - apply firstHit_map in H as (h & -> & H). exists h. split; [done|].
    eapply firstHit_iff; [|exact H]. intros a. simpl. apply String.eqb_eq.
  - apply noHit_map in H. eapply noHit_iff; [|exact H].
    intros a. simpl. apply String.eqb_eq.
Qed.

Lemma find_pattern hs (re : RegExp) :
  match List.find (fun h => re (text h)) (map headerOf hs) with
  | Some hit => ∃ h, hit = headerOf h ∧ firstHit (patternMatch trim re) hs h
  | None => noHit (patternMatch trim re) hs
  end.
Proof.
  pose proof (find_firstHit (fun h => re (text h)) (map headerOf hs)) as H.
  destruct (List.find _ _) as [hit|].
  - apply firstHit_map in H as (h & -> & H). exists h. done.
  - by apply noHit_map in H.
Qed.

Lemma pass1_spec hs candidates :
  match pass1 (map headerOf hs) (map norm candidates) with
  | Some c =>
      ∃ before x after h,
        candidates = before ++ CString x :: after
        ∧ (∀ y, CString y ∈ before → noHit (exactMatch y) hs)
        ∧ firstHit (exactMatch x) hs h ∧ c = fst h
  | None => ∀ y, CString y ∈ candidates → noHit (exactMatch y) hs
  end.
Proof.
  induction candidates as [|[x|re] rest IH]; simpl.
  - intros y Hy. by apply not_elem_of_nil in Hy.
  - pose proof (find_exact hs x) as Hfind.
    destruct (List.find _ _) as [hit|].
    + destruct Hfind as (h & -> & Hh).
      exists [], x, rest, h. split; [done|]. split; [|done].
      intros y Hy. by apply not_elem_of_nil in Hy.
    + destruct (pass1 _ _) as [c|].
      * destruct IH as (before & x' & after & h & -> & Hbefore & Hh & ->).
        exists (CString x :: before), x', after, h. split; [done|]. split; [|done].
        intros y [[= ->]|Hy]%elem_of_cons; [done|by apply Hbefore].
      * intros y [[= ->]|Hy]%elem_of_cons; [done|by apply IH].
  - destruct (pass1 _ _) as [c|].
    + destruct IH as (before & x' & after & h & -> & Hbefore & Hh & ->).
      exists (CRegExp re :: before), x', after, h. split; [done|]. split; [|done].
      intros y [[=]|Hy]%elem_of_cons. by apply Hbefore.
    + intros y [[=]|Hy]%elem_of_cons. by apply IH.
Qed.

Lemma pass2_spec hs candidates :
  match pass2 (map headerOf hs) (map norm candidates) with
  | Some c =>
      ∃ before re after h,
        candidates = before ++ CRegExp re :: after
        ∧ (∀ re', CRegExp re' ∈ before → noHit (patternMatch trim re') hs)
        ∧ firstHit (patternMatch trim re) hs h ∧ c = fst h
  | None => ∀ re, CRegExp re ∈ candidates → noHit (patternMatch trim re) hs
  end.
Proof.
  induction candidates as [|[x|re] rest IH]; simpl.
  - intros y Hy. by apply not_elem_of_nil in Hy.
  - destruct (pass2 _ _) as [c|].
    + destruct IH as (before & re' & after & h & -> & Hbefore & Hh & ->).
      exists (CString x :: before), re', after, h. split; [done|]. split; [|done].
      intros y [[=]|Hy]%elem_of_cons. by apply Hbefore.
    + intros y [[=]|Hy]%elem_of_cons. by apply IH.
  - pose proof (find_pattern hs re) as Hfind.
    destruct (List.find _ _) as [hit|].
    + destruct Hfind as (h & -> & Hh).
      exists [], re, rest, h. split; [done|]. split; [|done].
      intros y Hy. by apply not_elem_of_nil in Hy.
    + destruct (pass2 _ _) as [c|].
      * destruct IH as (before & re' & after & h & -> & Hbefore & Hh & ->).
        exists (CRegExp re :: before), re', after, h. split; [done|]. split; [|done].
        intros y [[= ->]|Hy]%elem_of_cons; [done|by apply Hbefore].
      * intros y [[= ->]|Hy]%elem_of_cons; [done|by apply IH].
Qed.

Lemma findColumnByHeader_Resolution worksheet range candidates :
  ref worksheet = Some range →
  Resolution trim (filter nonBlank (headerTexts worksheet range)) candidates
    (findColumnByHeader worksheet candidates).
Proof.
  intros Href. unfold findColumnByHeader. rewrite Href. simpl.
  rewrite collectHeaders_headerTexts.
  set (hs := filter nonBlank (headerTexts worksheet range)).
  pose proof (pass1_spec hs candidates) as H1.
  destruct (pass1 _ _) as [c|].
  - destruct H1 as (before & x & after & h & Hc & Hbefore & Hh & ->).
    by eapply ByExact.
  - pose proof (pass2_spec hs candidates) as H2.
    destruct (pass2 _ _) as [c|].
    + destruct H2 as (before & re & after & h & Hc & Hbefore & Hh & ->).
      by eapply ByPattern.
    + by apply ByDefault.
Qed.

(** C5, as amended. Over the header cells that hold a text which is not
    blank, resolution returns the leftmost header matching the first string
    candidate that has a match (trimmed text, letter case apart); only when
    no string candidate matches, the leftmost header accepted by the first
    pattern candidate that has a match (trimmed text, own letter case); and
    otherwise nothing, for which [resolveColumnsForSingleSheet] puts index 1
    for the source and index 3 for the target. It is total. *)
Theorem resolution_prefers_exact_then_pattern_then_default worksheet range :
  ref worksheet = Some range →
  let hs := filter nonBlank (headerTexts worksheet range) in
  (∀ candidates, Resolution trim hs candidates (findColumnByHeader worksheet candidates))
  ∧ ∃ source target,
      Resolution trim hs sourceCandidates source
      ∧ Resolution trim hs targetCandidates target
      ∧ resolveColumnsForSingleSheet worksheet
        = {| sourceColIndex := default 1 source; targetColIndex := default 3 target |}.
Proof.
  intros Href hs. split.
  - intros candidates. by apply findColumnByHeader_Resolution.
  - exists (findColumnByHeader worksheet sourceCandidates),
           (findColumnByHeader worksheet targetCandidates).
    split; [by apply findColumnByHeader_Resolution|].
    split; [by apply findColumnByHeader_Resolution|done].
Qed.

(** Case analysis on a membership [H : x ∈ [a; b; ...]] in a literal list:
    one goal per element, with [H : x = a], cases that equate different
    constructors being dropped. *)
Ltac each_member H :=
  repeat (apply elem_of_cons in H as [H|H]; [try discriminate H|]);
  [..|by apply not_elem_of_nil in H].

(** The rule decides: a header list and a candidate list have one resolution. *)
Lemma firstHit_unique {A : Type} (P : A -> Prop) (l : list A) (x y : A) :
  firstHit P l x → firstHit P l y → x = y.
Proof.
  intros (b1 & a1 & -> & Hx & Hb1) (b2 & a2 & Heq & Hy & Hb2).
  revert b2 Heq Hb2. induction b1 as [|z b1 IH]; intros b2 Heq Hb2.
  - destruct b2 as [|z b2]; simpl in Heq; [congruence|].
    injection Heq as <- _. destruct (Hb2 x); [apply elem_of_cons; by left|done].
  - destruct b2 as [|z' b2]; simpl in Heq.
    + injection Heq as -> _. destruct (Hb1 y); [apply elem_of_cons; by left|done].
    + injection Heq as <- Heq. apply (IH ltac:(intros w Hw; apply Hb1, elem_of_cons; by right)
                                        b2 Heq).
      intros w Hw. apply Hb2, elem_of_cons. by right.
Qed.

Lemma firstHit_elem {A : Type} (P : A -> Prop) (l : list A) (x : A) :
  firstHit P l x → x ∈ l ∧ P x.
Proof.
  intros (b & a & -> & Hx & _). split; [|done].
  apply elem_of_app. right. apply elem_of_cons. by left.
Qed.

Lemma Resolution_unique subject hs candidates r1 r2 :
  Resolution subject hs candidates r1 → Resolution subject hs candidates r2 → r1 = r2.
Proof.
  pose (hitE := fun c => match c with
                         | CString x => ∃ h, h ∈ hs ∧ exactMatch x h
                         | CRegExp _ => False
                         end).
  pose (hitP := fun c => match c with
                         | CRegExp re => ∃ h, h ∈ hs ∧ patternMatch subject re h
                         | CString _ => False
                         end).
  assert (HE : ∀ before x after h,
             candidates = before ++ CString x :: after →
             (∀ y, CString y ∈ before → noHit (exactMatch y) hs) →
             firstHit (exactMatch x) hs h → firstHit hitE candidates (CString x)).
  { intros before x after h -> Hbefore Hh. exists before, after. split; [done|].
    split; [exists h; by apply firstHit_elem in Hh|].
    intros [y|re] Hin; simpl; [|tauto]. intros (h' & Hh' & Hm). by eapply Hbefore. }
  assert (HP : ∀ before re after h,
             candidates = before ++ CRegExp re :: after →
             (∀ re', CRegExp re' ∈ before → noHit (patternMatch subject re') hs) →
             firstHit (patternMatch subject re) hs h →
             firstHit hitP candidates (CRegExp re)).
  { intros before re after h -> Hbefore Hh. exists before, after. split; [done|].
    split; [exists h; by apply firstHit_elem in Hh|].
    intros [y|re'] Hin; simpl; [tauto|]. intros (h' & Hh' & Hm). by eapply Hbefore. }
  assert (Hin : ∀ before c after, candidates = before ++ c :: after → c ∈ candidates).
  { intros before c after ->. apply elem_of_app. right. apply elem_of_cons. by left. }
  intros [b1 x1 a1 h1 Hc1 Hb1 Hh1|b1 re1 a1 h1 Hno1 Hc1 Hb1 Hh1|Hno1 Hnop1]
         [b2 x2 a2 h2 Hc2 Hb2 Hh2|b2 re2 a2 h2 Hno2 Hc2 Hb2 Hh2|Hno2 Hnop2].
  - pose proof (firstHit_unique _ _ _ _ (HE _ _ _ _ Hc1 Hb1 Hh1) (HE _ _ _ _ Hc2 Hb2 Hh2))
      as [= ->].
    by rewrite (firstHit_unique _ _ _ _ Hh1 Hh2).
  - apply firstHit_elem in Hh1 as [Hh1 Hm1]. destruct (Hno2 x1 (Hin _ _ _ Hc1) h1); done.
  - apply firstHit_elem in Hh1 as [Hh1 Hm1]. destruct (Hno2 x1 (Hin _ _ _ Hc1) h1); done.
  - apply firstHit_elem in Hh2 as [Hh2 Hm2]. destruct (Hno1 x2 (Hin _ _ _ Hc2) h2); done.
  - pose proof (firstHit_unique _ _ _ _ (HP _ _ _ _ Hc1 Hb1 Hh1) (HP _ _ _ _ Hc2 Hb2 Hh2))
      as [= ->].
    by rewrite (firstHit_unique _ _ _ _ Hh1 Hh2).
  - apply firstHit_elem in Hh1 as [Hh1 Hm1]. destruct (Hnop2 re1 (Hin _ _ _ Hc1) h1); done.
  - apply firstHit_elem in Hh2 as [Hh2 Hm2]. destruct (Hno1 x2 (Hin _ _ _ Hc2) h2); done.
  - apply firstHit_elem in Hh2 as [Hh2 Hm2]. destruct (Hnop1 re2 (Hin _ _ _ Hc2) h2); done.
  - done.
Qed.

(** C5 as stated fails, twice. A header cell holding one space has the
    trimmed text of the empty candidate, yet the code collects no header
    for it and finds no column, where the stated rule selects column 0.
    And a target header that starts with a space is found by the pattern,
    which the code gives the trimmed text: on the text as it stands in the
    cell the pattern does not match, and the stated rule has no column. *)
Lemma blank_and_padded_headers_escape_the_stated_rule :
  (let hs := headerTexts blankHeaderSheet blankRange in
   findColumnByHeader blankHeaderSheet [CString ""] = None
   ∧ Resolution asStored hs [CString ""] (Some 0)
   ∧ ¬ Resolution asStored hs [CString ""]
         (findColumnByHeader blankHeaderSheet [CString ""]))
  ∧ (let hs := headerTexts paddedHeaderSheet paddedRange in
     findColumnByHeader paddedHeaderSheet targetCandidates = Some 2
     ∧ targetColIndex (resolveColumnsForSingleSheet paddedHeaderSheet) = 2
     ∧ Resolution asStored hs targetCandidates None
     ∧ ¬ Resolution asStored hs targetCandidates
           (findColumnByHeader paddedHeaderSheet targetCandidates)).
Proof.
  split.
  - assert (Hhs : headerTexts blankHeaderSheet blankRange = [(0, " ")])
      by (vm_compute; reflexivity).
    assert (Hfind : findColumnByHeader blankHeaderSheet [CString ""] = None)
      by (vm_compute; reflexivity).
    simpl. rewrite Hhs, Hfind. split; [done|]. split.
    + apply (ByExact _ _ _ [] "" [] (0, " ")); [done| |].
      * intros y Hy. by apply not_elem_of_nil in Hy.
      * exists [], []. split; [done|]. split; [reflexivity|].
        intros y Hy. by apply not_elem_of_nil in Hy.
    + inversion 1 as [| |Hexact _].
      apply (Hexact "" ltac:(apply list_elem_of_singleton; reflexivity) (0, " ")).
      * apply list_elem_of_singleton; reflexivity.
      * reflexivity.
  - assert (Hhs : headerTexts paddedHeaderSheet paddedRange
                  = [(0, "ID"); (1, "Text"); (2, " Translated string (nb)")])
      by (vm_compute; reflexivity).
    assert (Hfind : findColumnByHeader paddedHeaderSheet targetCandidates = Some 2)
      by (vm_compute; reflexivity).
    assert (Hnone : Resolution asStored
                      [(0, "ID"); (1, "Text"); (2, " Translated string (nb)")]
                      targetCandidates None).
    { apply ByDefault.
      - intros y Hy h Hh Hm. unfold targetCandidates in Hy.
        each_member Hy; injection Hy as ->; each_member Hh; subst h;
          vm_compute in Hm; discriminate.
      - intros re Hre h Hh Hm. unfold targetCandidates in Hre.
        each_member Hre; injection Hre as ->; each_member Hh; subst h;
          vm_compute in Hm; discriminate. }
    simpl. rewrite Hhs, Hfind. split; [done|]. split; [by vm_compute|].
    split; [exact Hnone|].
    intros Hsome. pose proof (Resolution_unique _ _ _ _ _ Hsome Hnone). discriminate.
Qed.

(** ** The writer *)

Lemma or_else_idem x d : or_else (or_else x d) d = or_else x d.
Proof.
  unfold or_else. destruct (truthy x) eqn:Hx; [by rewrite Hx|].
  by destruct (truthy d).
Qed.

Lemma writeItem_SheetNames book it : SheetNames (writeItem book it) = SheetNames book.
Proof. unfold writeItem. by destruct (Sheets book !! Item.sheetName it). Qed.

Lemma writeItem_ref book it name :
  ref <$> (Sheets (writeItem book it) !! name) = ref <$> (Sheets book !! name).
Proof.
  unfold writeItem. destruct (Sheets book !! Item.sheetName it) as [ws|] eqn:Hws; [|done].
  simpl. destruct (decide (Item.sheetName it = name)) as [<-|Hne].
  - by rewrite lookup_insert_eq, Hws.
  - by rewrite lookup_insert_ne.
Qed.

Lemma writeItem_cell book it name key :
  cellOfBook (writeItem book it) name key
  = match Sheets book !! name with
    | None => None
    | Some ws =>
        if decide (Item.sheetName it = name ∧ (Item.targetColIndex it, Item.row it) = key)
        then Some {| t := "s"; v := or_else (Item.translated it) (VStr "") |}
        else cells ws !! key
    end.
Proof.
  unfold cellOfBook, writeItem.
  destruct (Sheets book !! Item.sheetName it) as [ws|] eqn:Hws.
  - simpl. destruct (decide (Item.sheetName it = name)) as [<-|Hne].
    + rewrite lookup_insert_eq, Hws. simpl.
      destruct (decide ((Item.targetColIndex it, Item.row it) = key)) as [<-|Hk].
      * rewrite lookup_insert_eq. by rewrite decide_True.
      * rewrite lookup_insert_ne by done. rewrite decide_False; [done|]. tauto.
    + rewrite lookup_insert_ne by done.
      destruct (Sheets book !! name); [|done]. simpl.
      rewrite decide_False; [done|]. tauto.
  - destruct (Sheets book !! name) as [ws|] eqn:Hws'; [|done]. simpl.
    rewrite decide_False; [done|]. intros [<- _]. congruence.
Qed.

Lemma fold_writeItem_SheetNames items book :
  SheetNames (fold_left writeItem items book) = SheetNames book.
Proof.
  revert book. induction items as [|it items IH]; intros book; simpl; [done|].
  by rewrite IH, writeItem_SheetNames.
Qed.

Lemma fold_writeItem_ref items book name :
  ref <$> (Sheets (fold_left writeItem items book) !! name) = ref <$> (Sheets book !! name).
Proof.
  revert book. induction items as [|it items IH]; intros book; simpl; [done|].
  by rewrite IH, writeItem_ref.
Qed.

Lemma fold_writeItem_cell items book name key :
  cellOfBook (fold_left writeItem items book) name key
  = match Sheets book !! name with
    | None => None
    | Some ws =>
        match lastWrite name key items with
        | Some it => Some {| t := "s"; v := or_else (Item.translated it) (VStr "") |}
        | None => cells ws !! key
        end
    end.
Proof.
  revert book. induction items as [|it items IH]; intros book; simpl.
  - unfold cellOfBook. by destruct (Sheets book !! name).
  - rewrite IH. pose proof (writeItem_ref book it name) as Href.
    pose proof (writeItem_cell book it name key) as Hcell. unfold cellOfBook in Hcell.
    destruct (Sheets (writeItem book it) !! name) as [ws'|],
             (Sheets book !! name) as [ws|]; try done.
    simpl in Hcell. destruct (lastWrite name key items); [done|].
    rewrite Hcell. by case_decide.
Qed.

Lemma lastWrite_assign cache name key rows :
  lastWrite name key (map (assignTranslation cache) rows)
  = assignTranslation cache <$> lastWrite name key rows.
Proof.
  induction rows as [|it rows IH]; simpl; [done|].
  rewrite IH. destruct (lastWrite name key rows); simpl; [done|].
  by case_decide.
Qed.

Lemma option_worksheet_ext (o1 o2 : option worksheet) :
  ref <$> o1 = ref <$> o2 →
  (∀ key, o1 ≫= (fun ws => cells ws !! key) = o2 ≫= (fun ws => cells ws !! key)) →
  o1 = o2.
Proof.
  destruct o1 as [[r1 c1]|], o2 as [[r2 c2]|]; simpl; try done.
  intros [= ->] Hcells. f_equal. f_equal. apply map_eq. intros key. apply Hcells.
Qed.

Lemma writer_cell (cache : plainObject) rows book name key :
  cellOfBook (writer cache rows book) name key
  = Sheets book !! name ≫= fun ws =>
      match lastWrite name key rows with
      | Some it =>
          Some {| t := "s"; v := or_else (OrdinaryGet cache (Item.original it)) (VStr "") |}
      | None => cells ws !! key
      end.
Proof.
  unfold writer. rewrite fold_writeItem_cell, lastWrite_assign.
  destruct (Sheets book !! name); [|done]. simpl.
  destruct (lastWrite name key rows); [|done]. simpl. by rewrite or_else_idem.
Qed.

(** In a row list made by the extractor, an item is the last one, and so
    the only one, that writes its target cell. *)
Lemma lastWrite_elem name key rows it :
  lastWrite name key rows = Some it →
  it ∈ rows ∧ Item.sheetName it = name ∧ (Item.targetColIndex it, Item.row it) = key.
Proof.
  induction rows as [|a rows IH]; simpl; [done|].
  destruct (lastWrite name key rows) as [later|].
  - intros [= ->]. destruct (IH eq_refl) as (? & ? & ?).
    split; [apply elem_of_cons; by right|done].
  - case_decide as Ha; [|done]. intros [= ->].
    split; [apply elem_of_cons; by left|done].
Qed.

Lemma lastWrite_of_extracted worksheet range sheetName src tgt it :
  let rows := rowsToTranslate worksheet range sheetName src tgt in
  it ∈ rows → lastWrite sheetName (tgt, Item.row it) rows = Some it.
Proof.
  intros rows. subst rows. unfold rowsToTranslate.
  pose proof (rows_of_seq worksheet sheetName src tgt (S (s_r range))
                (e_r range - s_r range)) as [Hsorted _].
  assert (Hshape : Forall (fun it => Item.sheetName it = sheetName
                                     ∧ Item.targetColIndex it = tgt)
            (flat_map (rowAt worksheet sheetName src tgt) (dataRows range))).
  { apply Forall_forall. intros x Hx.
    apply list_elem_of_In, in_flat_map in Hx as (r & _ & Hx).
    apply list_elem_of_In, rowAt_elem in Hx as [_ ->]. done. }
  unfold dataRows in *. simpl in Hsorted.
  induction (flat_map _ _) as [|a rows IH]; intros Hin.
  - by apply not_elem_of_nil in Hin.
  - simpl in Hsorted. apply StronglySorted_inv in Hsorted as [Hsorted Hless].
    apply Forall_cons in Hshape as [[Hname Htgt] Hshape]. simpl.
    apply elem_of_cons in Hin as [->|Hin].
    + destruct (lastWrite sheetName (tgt, Item.row a) rows) as [later|] eqn:Hlater.
      * apply lastWrite_elem in Hlater as (Hl & _ & [= _ Hrow]).
        rewrite List.Forall_forall in Hless.
        specialize (Hless (Item.row later)). rewrite Hrow in Hless.
        exfalso. eapply Nat.lt_irrefl, Hless.
        rewrite <- Hrow. apply in_map. by apply list_elem_of_In.
      * rewrite decide_True; [done|]. by rewrite Htgt.
    + by rewrite IH.
Qed.

Lemma written_cell_of_row (cache : plainObject) book sheetName worksheet range
    worksheet' it :
  let rows := extractRows sheetName worksheet range in
  Sheets book !! sheetName = Some worksheet' →
  it ∈ rows →
  cellOfBook (writer cache rows book) sheetName (Item.targetColIndex it, Item.row it)
  = Some {| t := "s"; v := or_else (OrdinaryGet cache (Item.original it)) (VStr "") |}.
Proof.
  intros rows Hsheet Hin. rewrite writer_cell, Hsheet. simpl.
  subst rows. unfold extractRows in *.
  assert (Htgt : Item.targetColIndex it
                 = targetColIndex (resolveColumnsForSingleSheet worksheet)).
  { apply list_elem_of_In, in_flat_map in Hin as (r & _ & Hit).
    apply list_elem_of_In, rowAt_elem in Hit as [_ ->]. done. }
  rewrite Htgt. by rewrite lastWrite_of_extracted.
Qed.

(** C8. The writer is idempotent: run on its own result, with the same
    cache and row list, it leaves every sheet as it is, and each cell it
    touches is a text-typed cell holding [cache[original] || ""]. But
    [cache[original]] is a read of a plain object: for a text that names a
    property of [Object.prototype] and has no entry of its own, it is the
    inherited built-in, not the empty string. With an empty cache, as
    after the answer [[]], the row whose text is "constructor" gets the
    function [Object] in its text-typed cell and the row whose text is
    "__proto__" gets [Object.prototype]; the row "Hello" gets the empty
    string. *)
Theorem writer_is_idempotent_but_writes_what_the_cache_inherits :
  (∀ (cache : plainObject) (rows : list item) (book : workbook),
     writer cache rows (writer cache rows book) = writer cache rows book
     ∧ ∀ name key,
         cellOfBook (writer cache rows book) name key
         = Sheets book !! name ≫= fun ws =>
             match lastWrite name key rows with
             | Some it =>
                 Some {| t := "s";
                         v := or_else (OrdinaryGet cache (Item.original it)) (VStr "") |}
             | None => cells ws !! key
             end)
  ∧ let rows := extractRows "Sheet1" inheritedNamesSheet sampleRange in
    let written := writer emptyObject rows inheritedNamesBook in
    map Item.original rows = ["Hello"; "constructor"; "__proto__"]
    ∧ own emptyObject !! "constructor" = None
    ∧ cellOfBook written "Sheet1" (3, 1) = Some {| t := "s"; v := VStr "" |}
    ∧ cellOfBook written "Sheet1" (3, 2) = Some {| t := "s"; v := Builtin ObjectFunction |}
    ∧ cellOfBook written "Sheet1" (3, 3)
      = Some {| t := "s"; v := Builtin TheObjectPrototype |}
    ∧ saves (events (processFile (sampleEnv inheritedNamesBook emptyAnswer emptyParse)
                       sampleUrl "job-1"))
      = [("processed-terms.xlsx", written)].
Proof.
  split; [|vm_compute; done].
  intros cache rows book. split; [|apply writer_cell].
  set (once := writer cache rows book).
  destruct (writer cache rows once) as [names2 sheets2] eqn:Htwice.
  destruct once as [names1 sheets1] eqn:Honce.
  assert (names2 = names1) as ->.
  { change names2 with (SheetNames {| SheetNames := names2; Sheets := sheets2 |}).
    rewrite <- Htwice. unfold writer. rewrite fold_writeItem_SheetNames. done. }
  f_equal. apply map_eq. intros name. apply option_worksheet_ext.
  - change sheets2 with (Sheets {| SheetNames := names1; Sheets := sheets2 |}).
    rewrite <- Htwice. unfold writer. by rewrite fold_writeItem_ref.
  - intros key.
    change (cellOfBook {| SheetNames := names1; Sheets := sheets2 |} name key
            = cellOfBook {| SheetNames := names1; Sheets := sheets1 |} name key).
    rewrite <- Htwice, writer_cell. simpl.
    pose proof (writer_cell cache rows book name key) as Hone.
    subst once. rewrite Honce in Hone.
    rewrite Hone. unfold cellOfBook in Hone. simpl in Hone.
    pose proof (fold_writeItem_ref (map (assignTranslation cache) rows) book name) as Href.
    fold (writer cache rows book) in Href. rewrite Honce in Href. simpl in Href.
    destruct (sheets1 !! name) as [ws1|], (Sheets book !! name) as [ws|]; try done.
    simpl in *. destruct (lastWrite name key rows); [done|]. exact Hone.
Qed.

(** ** The translation loop *)

Section LoopFacts.

Context (env : environment) (jobId customHeader : string) (uniqueList : list string).

Local Abbreviation loop := (translateLoop env jobId customHeader uniqueList).
Local Abbreviation step := (batchStep env jobId customHeader uniqueList).

Lemma translateLoop_done i st : length uniqueList ≤ i → loop i st = Next st.
Proof.
  intros Hi. rewrite translateLoop_equation_1.
  destruct (decide (i < length uniqueList)); [lia|done].
Qed.

Lemma translateLoop_step i st :
  i < length uniqueList →
  loop i st = match step i st with
              | Next st' => loop (i + batchSize) st'
              | Aborted message st' => Aborted message st'
              end.
Proof.
  intros Hi. rewrite translateLoop_equation_1.
  destruct (decide (i < length uniqueList)); [|lia]. simpl.
  destruct (step i st); done.
Qed.

(** The loop terminates: it visits the offsets [i], [i + batchSize], ... and
    a state that every completed iteration preserves still holds at the end. *)
Lemma translateLoop_invariant (P : nat -> loopState -> Prop) :
  (∀ i st st', i < length uniqueList → P i st → step i st = Next st' →
               P (i + batchSize) st') →
  ∀ i st st', P i st → loop i st = Next st' → ∃ i', length uniqueList ≤ i' ∧ P i' st'.
Proof.
  intros Hstep i. remember (length uniqueList - i) as fuel eqn:Hfuel.
  revert i Hfuel. induction fuel as [fuel IH] using lt_wf_ind.
  intros i -> st st' HP Hloop.
  destruct (decide (i < length uniqueList)) as [Hi|Hi].
  - rewrite translateLoop_step in Hloop by done.
    destruct (step i st) as [st1|] eqn:Hst; [|done].
    eapply (IH (length uniqueList - (i + batchSize))); [unfold batchSize; lia|done| |done].
    by eapply Hstep.
  - rewrite translateLoop_done in Hloop by lia. injection Hloop as <-.
    exists i. split; [lia|done].
Qed.

(** An iteration that aborts whatever the state makes the loop abort, from
    any earlier offset of the same stride. *)
Lemma translateLoop_aborts k :
  ∀ i, i + k * batchSize < length uniqueList →
  (∀ st, ∃ message st', step (i + k * batchSize) st = Aborted message st') →
  ∀ st, ∃ message st', loop i st = Aborted message st'.
Proof.
  induction k as [|k IH]; intros i Hlt Hbad st.
  - rewrite Nat.add_0_r in *. rewrite translateLoop_step by done.
    destruct (Hbad st) as (message & st' & ->). eauto.
  - rewrite translateLoop_step by lia.
    destruct (step i st) as [st1|message st1]; [|eauto].
    apply IH.
    + replace (i + batchSize + k * batchSize) with (i + S k * batchSize) by lia. done.
    + replace (i + batchSize + k * batchSize) with (i + S k * batchSize) by lia. done.
Qed.

End LoopFacts.

(** ** The log of the loop *)

Lemma requests_app evs1 evs2 : requests (evs1 ++ evs2) = requests evs1 ++ requests evs2.
Proof. unfold requests. apply omap_app. Qed.

Lemma progressReports_app evs1 evs2 :
  progressReports (evs1 ++ evs2) = progressReports evs1 ++ progressReports evs2.
Proof. unfold progressReports. apply omap_app. Qed.

Section LoopLog.

Context (env : environment) (jobId customHeader : string) (uniqueList : list string).

Local Abbreviation loop := (translateLoop env jobId customHeader uniqueList).
Local Abbreviation step := (batchStep env jobId customHeader uniqueList).
Local Abbreviation events_of := (batchEvents env jobId customHeader uniqueList).

(** Where an aborted loop stopped: at an iteration that aborts, reached
    through completed iterations. *)
Lemma translateLoop_abort_point (P : nat -> loopState -> Prop) :
  (∀ i st st', i < length uniqueList → P i st → step i st = Next st' →
               P (i + batchSize) st') →
  ∀ i st message st', P i st → loop i st = Aborted message st' →
  ∃ i0 st0, i0 < length uniqueList ∧ P i0 st0 ∧ step i0 st0 = Aborted message st'.
Proof.
  intros Hstep i. remember (length uniqueList - i) as fuel eqn:Hfuel.
  revert i Hfuel. induction fuel as [fuel IH] using lt_wf_ind.
  intros i -> st message st' HP Hloop.
  destruct (decide (i < length uniqueList)) as [Hi|Hi].
  - rewrite translateLoop_step in Hloop by done.
    destruct (step i st) as [st1|message1 st1] eqn:Hst.
    + eapply (IH (length uniqueList - (i + batchSize)));
        [unfold batchSize; lia|done| |done].
      by eapply Hstep.
    + injection Hloop as <- <-. eauto.
  - rewrite translateLoop_done in Hloop by lia. done.
Qed.

Lemma batchStep_log k st :
  match step (k * batchSize) st with
  | Next st' => log st' = log st ++ events_of k
  | Aborted _ st' =>
      log st' = log st ++ [SendMessage (buildPrompt customHeader (batchAt uniqueList k))]
  end.
Proof.
  unfold batchStep, batchEvents, batchAt.
  rewrite Nat.div_mul by (unfold batchSize; lia).
  destruct (translateBatch env k _) as [translatedBatch|]; simpl.
  - destruct (updateCache _ _); simpl; [|done]. by rewrite <- app_assoc.
  - done.
Qed.

Lemma batchCount_reached k :
  length uniqueList ≤ k * batchSize →
  k = 0 ∨ (k - 1) * batchSize < length uniqueList →
  k = batchCount (length uniqueList).
Proof.
  unfold batchCount, batchSize. intros Hge Hlt.
  destruct k as [|k].
  - assert (length uniqueList = 0) as -> by lia. reflexivity.
  - apply (Nat.div_unique _ _ _ (length uniqueList + 99 - 100 * S k)); lia.
Qed.

Lemma loop_log_invariant i st st' :
  let P := fun (i : nat) (st : loopState) =>
    ∃ k, i = k * batchSize
         ∧ (k = 0 ∨ (k - 1) * batchSize < length uniqueList)
         ∧ log st = flat_map events_of (seq 0 k) in
  i < length uniqueList → P i st → step i st = Next st' → P (i + batchSize) st'.
Proof.
  intros P Hi (k & -> & _ & Hlog) Hstep.
  exists (S k). split; [lia|]. split; [right; simpl; lia|].
  pose proof (batchStep_log k st) as Hk. rewrite Hstep in Hk.
  rewrite Hk, Hlog, seq_S, flat_map_app. simpl. by rewrite app_nil_r.
Qed.

End LoopLog.

Lemma translateLoop_log env jobId customHeader uniqueList :
  match translateLoop env jobId customHeader uniqueList 0 startState with
  | Next st =>
      log st = flat_map (batchEvents env jobId customHeader uniqueList)
                 (seq 0 (batchCount (length uniqueList)))
  | Aborted _ st =>
      ∃ k, k < batchCount (length uniqueList)
           ∧ log st = flat_map (batchEvents env jobId customHeader uniqueList) (seq 0 k)
                      ++ [SendMessage (buildPrompt customHeader (batchAt uniqueList k))]
  end.
Proof.
  pose (P := fun (i : nat) (st : loopState) =>
    ∃ k, i = k * batchSize
         ∧ (k = 0 ∨ (k - 1) * batchSize < length uniqueList)
         ∧ log st = flat_map (batchEvents env jobId customHeader uniqueList) (seq 0 k)).
  assert (HP0 : P 0 startState) by (exists 0; split; [done|]; split; [by left|done]).
  destruct (translateLoop env jobId customHeader uniqueList 0 startState)
    as [st|message st] eqn:Hloop.
  - destruct (translateLoop_invariant env jobId customHeader uniqueList P
                (loop_log_invariant env jobId customHeader uniqueList) 0 startState st
                HP0 Hloop) as (i' & Hi' & k & -> & Hk & Hlog).
    by rewrite <- (batchCount_reached uniqueList k Hi' Hk).
  - destruct (translateLoop_abort_point env jobId customHeader uniqueList P
                (loop_log_invariant env jobId customHeader uniqueList) 0 startState
                message st HP0 Hloop) as (i0 & st0 & Hi0 & (k & -> & Hk & Hlog) & Hstep).
    exists k. split.
    + unfold batchCount, batchSize in *.
      apply Nat.div_le_lower_bound; lia.
    + pose proof (batchStep_log env jobId customHeader uniqueList k st0) as Hk'.
      rewrite Hstep in Hk'. by rewrite Hk', Hlog.
Qed.

Lemma batchEvents_counts env jobId customHeader uniqueList ks :
  let evs := flat_map (batchEvents env jobId customHeader uniqueList) ks in
  requests evs = map (fun k => buildPrompt customHeader (batchAt uniqueList k)) ks
  ∧ length (progressReports evs) ≤ length ks.
Proof.
  induction ks as [|k ks [IHr IHp]]; [done|].
  cbn zeta in *.
  change (flat_map (batchEvents env jobId customHeader uniqueList) (k :: ks))
    with (batchEvents env jobId customHeader uniqueList k
          ++ flat_map (batchEvents env jobId customHeader uniqueList) ks).
  set (rest := flat_map (batchEvents env jobId customHeader uniqueList) ks) in *.
  rewrite requests_app, progressReports_app, length_app, IHr. unfold batchEvents.
  destruct (translateBatch env k _); simpl; split; (done || lia).
Qed.

(** ** The cache as an object *)

Lemma OrdinarySet_plain object name x :
  name ≠ "__proto__" →
  OrdinarySet object name x
  = {| own := <[name := x]> (own object); proto := proto object |}.
Proof.
  intros Hname. unfold OrdinarySet, reachesProtoSetter.
  by destruct (String.eqb_spec name "__proto__").
Qed.

(** An assignment changes no own property under another name. *)
Lemma OrdinarySet_own_ne object name x s :
  name ≠ s → own (OrdinarySet object name x) !! s = own object !! s.
Proof.
  intros Hne. unfold OrdinarySet. destruct (reachesProtoSetter object name).
  - by destruct x.
  - simpl. by rewrite lookup_insert_ne.
Qed.

Lemma OrdinarySet_own_eq object name x :
  name ≠ "__proto__" → own (OrdinarySet object name x) !! name = Some x.
Proof. intros Hname. rewrite OrdinarySet_plain by done. simpl. apply lookup_insert_eq. Qed.

Lemma OrdinarySet_own object name x s :
  s ≠ "__proto__" →
  own (OrdinarySet object name x) !! s
  = if decide (name = s) then Some x else own object !! s.
Proof.
  intros Hs. destruct (decide (name = s)) as [->|Hne].
  - by apply OrdinarySet_own_eq.
  - by apply OrdinarySet_own_ne.
Qed.

(** Assigning a string never replaces the prototype, whatever the key. *)
Lemma OrdinarySet_string_proto object name text :
  proto (OrdinarySet object name (VStr text)) = proto object.
Proof. unfold OrdinarySet. by destruct (reachesProtoSetter object name). Qed.

(** On a cache with its first prototype, assigning a string to [__proto__]
    is lost: the setter ignores what is neither an object nor [null]. *)
Lemma OrdinarySet_proto_string object text :
  untouchedPrototype object → OrdinarySet object "__proto__" (VStr text) = object.
Proof.
  intros [Hproto Hown]. unfold OrdinarySet, reachesProtoSetter.
  by rewrite Hown, Hproto.
Qed.

Lemma OrdinarySet_untouched object name x :
  untouchedPrototype object → name ≠ "__proto__" →
  untouchedPrototype (OrdinarySet object name x).
Proof.
  intros [Hproto Hown] Hname. rewrite OrdinarySet_plain by done.
  split; simpl; [done|]. by rewrite lookup_insert_ne.
Qed.

Lemma markEmpty_other batch cache s :
  s ∉ batch → own (markEmpty batch cache) !! s = own cache !! s.
Proof.
  unfold markEmpty. revert cache. induction batch as [|a batch IH]; intros cache Hs; simpl.
  - done.
  - rewrite IH by (intros Hin; apply Hs, elem_of_cons; by right).
    apply OrdinarySet_own_ne. intros ->. apply Hs, elem_of_cons. by left.
Qed.

Lemma markEmpty_own batch cache s :
  s ≠ "__proto__" →
  own (markEmpty batch cache) !! s
  = if decide (s ∈ batch) then Some (VStr "") else own cache !! s.
Proof.
  intros Hs. unfold markEmpty. revert cache.
  induction batch as [|a batch IH]; intros cache; simpl.
  - done.
  - rewrite IH. destruct (decide (s ∈ batch)) as [Hin|Hnin].
    + rewrite decide_True; [done|]. apply elem_of_cons. by right.
    + rewrite OrdinarySet_own by done. destruct (decide (a = s)) as [->|Hne].
      * rewrite decide_True; [done|]. apply elem_of_cons. by left.
      * rewrite decide_False; [done|]. intros [->|?]%elem_of_cons; done.
Qed.

Lemma markEmpty_proto batch cache : proto (markEmpty batch cache) = proto cache.
Proof.
  unfold markEmpty. revert cache. induction batch as [|a batch IH]; intros cache; simpl.
  - done.
  - rewrite IH. apply OrdinarySet_string_proto.
Qed.

Lemma markEmpty_untouched batch cache :
  untouchedPrototype cache → untouchedPrototype (markEmpty batch cache).
Proof.
  unfold markEmpty. revert cache. induction batch as [|a batch IH]; intros cache Hcache; simpl.
  - done.
  - apply IH. destruct (decide (a = "__proto__")) as [->|Hne].
    + by rewrite OrdinarySet_proto_string.
    + by apply OrdinarySet_untouched.
Qed.

Lemma getProp_string_key translationObj raw :
  getProp translationObj "key" = Normal (VStr raw) →
  ∃ props, translationObj = VObj props ∧ ownProp "key" props = VStr raw
           ∧ getProp translationObj "value" = Normal (ownProp "value" props).
Proof. destruct translationObj; try done. intros [= Hk]. eauto. Qed.

(** An answer names [s] exactly when [lastNamed] finds a value for it. *)
Lemma lastNamed_named s translatedBatch :
  is_Some (lastNamed s translatedBatch)
  ↔ ∃ translationObj raw,
      translationObj ∈ translatedBatch
      ∧ getProp translationObj "key" = Normal (VStr raw) ∧ trim raw = s.
Proof.
  induction translatedBatch as [|obj rest IH]; simpl.
  - split; [by intros []|]. intros (x & raw & Hin & _). by apply not_elem_of_nil in Hin.
  - split.
    + destruct (lastNamed s rest) as [later|].
      * intros _. destruct (proj1 IH) as (x & raw & Hin & Hx); [done|].
        exists x, raw. split; [apply elem_of_cons; by right|done].
      * destruct obj as [| | | | | |props]; try by intros [].
        destruct (ownProp "key" props) as [| | | |raw| |] eqn:Hraw; try by intros [].
        destruct (String.eqb_spec (trim raw) s) as [Heq|]; [|by intros []].
        intros _. exists (VObj props), raw.
        split; [apply elem_of_cons; by left|]. simpl. by rewrite Hraw.
    + intros (x & raw & [->|Hin]%elem_of_cons & Hkey & Htrim).
      * destruct (lastNamed s rest); [done|].
        destruct (getProp_string_key _ _ Hkey) as (props & -> & -> & _).
        by rewrite (proj2 (String.eqb_eq _ _) Htrim).
      * destruct (proj2 IH) as [later ->]; [eauto|done].
Qed.

Lemma lastNamed_none s translatedBatch translationObj raw :
  lastNamed s translatedBatch = None →
  translationObj ∈ translatedBatch →
  getProp translationObj "key" = Normal (VStr raw) → trim raw ≠ s.
Proof.
  intros Hnone Hin Hkey Htrim.
  destruct (proj2 (lastNamed_named s translatedBatch)) as [x Hx]; [eauto|congruence].
Qed.

(** The own entries after an answer is stored: the last element naming a
    text wins, other entries are kept. *)
Lemma updateCache_lookup translatedBatch (cache cache' : plainObject) s :
  updateCache translatedBatch cache = Normal cache' →
  s ≠ "__proto__" →
  own cache' !! s = match lastNamed s translatedBatch with
                    | Some x => Some x
                    | None => own cache !! s
                    end.
Proof.
  intros Hupd Hs. revert cache Hupd.
  induction translatedBatch as [|obj rest IH]; intros cache; simpl.
  - by intros [= <-].
  - destruct (getProp obj "key") as [k|] eqn:Hk; [|done].
    destruct (callTrim k) as [key|] eqn:Hkey; [|by destruct (getProp obj "value")].
    destruct k as [| | | |raw| |]; try done. injection Hkey as <-.
    destruct (getProp_string_key obj raw Hk) as (props & -> & Hraw & ->).
    intros Hrest. rewrite (IH _ Hrest).
    destruct (lastNamed s rest); [done|]. rewrite Hraw.
    rewrite OrdinarySet_own by done.
    destruct (String.eqb_spec (trim raw) s) as [<-|Hne].
    + by rewrite decide_True.
    + by rewrite decide_False.
Qed.

(** An answer none of whose keys is [__proto__] leaves the prototype and
    the entry of that name alone. *)
Lemma updateCache_proto translatedBatch (cache cache' : plainObject) :
  updateCache translatedBatch cache = Normal cache' →
  lastNamed "__proto__" translatedBatch = None →
  proto cache' = proto cache ∧ own cache' !! "__proto__" = own cache !! "__proto__".
Proof.
  revert cache. induction translatedBatch as [|obj rest IH]; intros cache; simpl.
  - by intros [= <-].
  - destruct (getProp obj "key") as [k|] eqn:Hk; [|done].
    destruct (callTrim k) as [key|] eqn:Hkey; [|by destruct (getProp obj "value")].
    destruct k as [| | | |raw| |]; try done. injection Hkey as <-.
    destruct (getProp_string_key obj raw Hk) as (props & -> & Hraw & ->).
    intros Hrest Hnone. destruct (lastNamed "__proto__" rest) eqn:Hlater; [done|].
    rewrite Hraw in Hnone.
    destruct (String.eqb_spec (trim raw) "__proto__") as [|Hne]; [done|].
    destruct (IH _ Hrest eq_refl) as [-> ->].
    rewrite OrdinarySet_plain by done. simpl. by rewrite lookup_insert_ne.
Qed.

(** ** Failed batches *)

Lemma translateBatch_fails env callNo prompt :
  BatchFailure env callNo prompt ↔ ∃ message, translateBatch env callNo prompt = Throw message.
Proof.
  unfold translateBatch. split.
  - intros [m Hs|raw Hs Hm|raw matched m Hs Hm Hp|raw matched parsed Hs Hm Hp Hna];
      rewrite Hs; [eauto|..]; rewrite Hm; [eauto|..]; rewrite Hp; [eauto|].
    destruct parsed; eauto. by destruct (Hna items).
  - intros [message H].
    destruct (sendMessage env callNo prompt) as [raw|m] eqn:Hs; [|by eapply ServiceError].
    destruct (matchArray _) as [matched|] eqn:Hm; [|by eapply NoArrayFound].
    destruct (JSON_parse env _) as [parsed|m] eqn:Hp; [|by eapply MalformedJSON].
    eapply NotAnArray; [done..|]. intros items ->. done.
Qed.

(** What an iteration that completes does to the own entries of the
    cache, and when it leaves the prototype alone. *)
Lemma batchStep_own env jobId customHeader uniqueList k st st' s :
  batchStep env jobId customHeader uniqueList (k * batchSize) st = Next st' →
  s ≠ "__proto__" →
  own (translationCache st') !! s
  = match translateBatch env k (buildPrompt customHeader (batchAt uniqueList k)) with
    | Throw _ =>
        if decide (s ∈ batchAt uniqueList k) then Some (VStr "")
        else own (translationCache st) !! s
    | Normal translatedBatch =>
        match lastNamed s translatedBatch with
        | Some x => Some x
        | None => own (translationCache st) !! s
        end
    end.
Proof.
  unfold batchStep, batchAt. rewrite Nat.div_mul by (unfold batchSize; lia).
  destruct (translateBatch env k _) as [translatedBatch|message].
  - destruct (updateCache translatedBatch (translationCache st)) as [cache'|] eqn:Hupd;
      [|done].
    intros [= <-] Hs. simpl. by apply updateCache_lookup.
  - intros [= <-] Hs. simpl. by apply markEmpty_own.
Qed.

Lemma batchStep_untouched env jobId customHeader uniqueList k st st' :
  batchStep env jobId customHeader uniqueList (k * batchSize) st = Next st' →
  ¬ namedByAnswer env customHeader uniqueList k "__proto__" →
  untouchedPrototype (translationCache st) → untouchedPrototype (translationCache st').
Proof.
  unfold batchStep, namedByAnswer, batchAt. rewrite Nat.div_mul by (unfold batchSize; lia).
  destruct (translateBatch env k _) as [translatedBatch|message].
  - destruct (updateCache translatedBatch (translationCache st)) as [cache'|] eqn:Hupd;
      [|done].
    intros [= <-] Hfree [Hproto Hown]. simpl.
    destruct (updateCache_proto _ _ _ Hupd) as [Hp Ho].
    + destruct (lastNamed "__proto__" translatedBatch) as [x|] eqn:Hnamed; [|done].
      destruct Hfree. exists translatedBatch.
      destruct (proj1 (lastNamed_named "__proto__" translatedBatch)) as (obj & raw & ?);
        [by rewrite Hnamed|]. eauto.
    + split; congruence.
  - intros [= <-] _ Hcache. simpl. by apply markEmpty_untouched.
Qed.

(** C4, at a failing input. The source column holds "Hello", "constructor"
    and "__proto__", one batch, and the model is unreachable, so the batch
    fails. The iteration ends normally and blanks "Hello" and
    "constructor", but the assignment [translationCache["__proto__"] = ""]
    makes no entry: it reaches the setter that [Object.prototype] defines,
    which ignores a string. The job completes, and the writer puts
    [Object.prototype] itself, not the empty string, into the target cell
    of that row. *)
Theorem failed_batch_leaves_the_proto_text_without_entry :
  let env := sampleEnv inheritedNamesBook serviceDown [] in
  let batch := uniqueTexts (extractRows "Sheet1" inheritedNamesSheet sampleRange) in
  let run := processFile env sampleUrl "job-1" in
  batch = ["Hello"; "constructor"; "__proto__"]
  ∧ BatchFailure env 0 (buildPrompt "" batch)
  ∧ ∃ st content,
      batchStep env "job-1" "" batch 0 startState = Next st
      ∧ own (translationCache st) !! "Hello" = Some (VStr "")
      ∧ own (translationCache st) !! "constructor" = Some (VStr "")
      ∧ own (translationCache st) !! "__proto__" = None
      ∧ OrdinaryGet (translationCache st) "__proto__" = Builtin TheObjectPrototype
      ∧ outcome run = Normal "https://storage.example/processed-terms.xlsx"
      ∧ saves (events run) = [("processed-terms.xlsx", content)]
      ∧ cellOfBook content "Sheet1" (3, 1) = Some {| t := "s"; v := VStr "" |}
      ∧ cellOfBook content "Sheet1" (3, 2) = Some {| t := "s"; v := VStr "" |}
      ∧ cellOfBook content "Sheet1" (3, 3)
        = Some {| t := "s"; v := Builtin TheObjectPrototype |}.
Proof.
  intros env batch run. split; [vm_compute; reflexivity|]. split.
  - apply (ServiceError _ _ _ "503 Service Unavailable"). reflexivity.
  - eexists _, _. split; [vm_compute; reflexivity|].
    do 5 (split; [vm_compute; reflexivity|]).
    split; [vm_compute; reflexivity|].
    repeat split; vm_compute; reflexivity.
Qed.

(** ** Answers with a malformed element *)

Lemma updateCache_aborts translatedBatch translationObj (cache : plainObject) :
  translationObj ∈ translatedBatch → KeyNotString translationObj →
  ∃ message, updateCache translatedBatch cache = Throw message.
Proof.
  intros Hin Hbad. revert cache.
  induction translatedBatch as [|x rest IH]; intros cache.
  - by apply not_elem_of_nil in Hin.
  - simpl. destruct (getProp x "key") as [k|m] eqn:Hk; [|eauto].
    destruct (callTrim k) as [key|m] eqn:Htrim.
    + destruct k; try done.
      apply elem_of_cons in Hin as [->|Hin]; [by destruct (Hbad s)|].
      destruct (getProp x "value") as [val|m]; [|eauto].
      by apply IH.
    + destruct (getProp x "value"); eauto.
Qed.

Lemma processFile_aborted env fileUrl jobId book sheetName worksheet range :
  error (jobs_select env jobId) = None →
  download env (lastSegment fileUrl) = Normal book →
  firstSheet book = Some (sheetName, worksheet, range) →
  (∃ message st,
     translateLoop env jobId (customHeaderOf (jobs_select env jobId))
       (uniqueTexts (extractRows sheetName worksheet range)) 0 startState
     = Aborted message st) →
  ∃ message, outcome (processFile env fileUrl jobId) = Throw message.
Proof.
  intros Hsel Hdl Hsheet (message & st & Hloop).
  unfold processFile. rewrite Hsel, Hdl, Hsheet. simpl. rewrite Hloop. simpl. eauto.
Qed.

Lemma postProcessFile_error env fileUrl jobId message :
  fileUrl ≠ "" → jobId ≠ "" →
  outcome (processFile env fileUrl jobId) = Throw message →
  postProcessFile env (Some fileUrl) (Some jobId)
  = [UpdateStatus jobId "processing" None; Respond 202]
    ++ events (processFile env fileUrl jobId) ++ [UpdateStatus jobId "error" None].
Proof.
  intros Hf Hj Hout. unfold postProcessFile.
  destruct (String.eqb_spec fileUrl ""); [done|].
  destruct (String.eqb_spec jobId ""); [done|]. simpl. by rewrite Hout.
Qed.

(** C10. When the answer to a batch parses to an array holding an element
    whose [key] is not a string, the update of the cache throws: that
    iteration aborts in any state, [processFile] rejects, and the handler
    marks the job "error" as the last thing it does. *)
Theorem non_string_key_aborts_job
    env fileUrl jobId book sheetName worksheet range k translatedBatch translationObj :
  let customHeader := customHeaderOf (jobs_select env jobId) in
  let uniqueList := uniqueTexts (extractRows sheetName worksheet range) in
  let i := k * batchSize in
  fileUrl ≠ "" → jobId ≠ "" →
  error (jobs_select env jobId) = None →
  download env (lastSegment fileUrl) = Normal book →
  firstSheet book = Some (sheetName, worksheet, range) →
  i < length uniqueList →
  translateBatch env k (buildPrompt customHeader (slice i (i + batchSize) uniqueList))
  = Normal translatedBatch →
  translationObj ∈ translatedBatch → KeyNotString translationObj →
  (∀ st, ∃ message st',
      batchStep env jobId customHeader uniqueList i st = Aborted message st')
  ∧ (∃ message, outcome (processFile env fileUrl jobId) = Throw message)
  ∧ last (postProcessFile env (Some fileUrl) (Some jobId))
    = Some (UpdateStatus jobId "error" None).
Proof.
  intros customHeader uniqueList i Hf Hj Hsel Hdl Hsheet Hi Hanswer Hin Hbad.
  assert (Hstep : ∀ st, ∃ message st',
             batchStep env jobId customHeader uniqueList i st = Aborted message st').
  { intros st. unfold batchStep. subst i.
    rewrite Nat.div_mul by (unfold batchSize; lia). rewrite Hanswer.
    destruct (updateCache_aborts _ _ (translationCache st) Hin Hbad) as [message ->].
    eauto. }
  assert (Hout : ∃ message, outcome (processFile env fileUrl jobId) = Throw message).
  { eapply processFile_aborted; [done..|].
    apply (translateLoop_aborts env jobId customHeader uniqueList k 0); [done|].
    exact Hstep. }
  split; [exact Hstep|]. split; [exact Hout|].
  destruct Hout as [message Hout].
  rewrite (postProcessFile_error _ _ _ _ Hf Hj Hout).
  rewrite !app_assoc. apply last_snoc.
Qed.

(** ** A sheet without a data range *)

(** C9. When the first sheet of the downloaded workbook declares no data
    range, [processFile] rejects having sent no translation request and
    saved nothing (the writer never runs), and the handler marks the job
    "error". *)
Theorem missing_range_aborts_before_translation
    env fileUrl jobId book sheetName worksheet :
  let run := processFile env fileUrl jobId in
  fileUrl ≠ "" → jobId ≠ "" →
  download env (lastSegment fileUrl) = Normal book →
  head (SheetNames book) = Some sheetName →
  Sheets book !! sheetName = Some worksheet →
  ref worksheet = None →
  outcome run
  = Throw (default "No data range found in the first sheet." (error (jobs_select env jobId)))
  ∧ events run = []
  ∧ postProcessFile env (Some fileUrl) (Some jobId)
    = [UpdateStatus jobId "processing" None; Respond 202; UpdateStatus jobId "error" None].
Proof.
  intros run Hf Hj Hdl Hhead Hsheet Href.
  assert (Hrun : run = thrown (default "No data range found in the first sheet."
                                 (error (jobs_select env jobId))) []).
  { subst run. unfold processFile.
    destruct (error (jobs_select env jobId)); [done|].
    rewrite Hdl. unfold firstSheet. by rewrite Hhead, Hsheet, Href. }
  split; [by rewrite Hrun|]. split; [by rewrite Hrun|].
  rewrite (postProcessFile_error env fileUrl jobId
             (default "No data range found in the first sheet."
                (error (jobs_select env jobId))) Hf Hj).
  - fold run. by rewrite Hrun.
  - fold run. by rewrite Hrun.
Qed.

(** ** The cache when the writer starts *)

Lemma contributes_cases env customHeader uniqueList k s :
  contributes env customHeader uniqueList k s
  ↔ inFailedBatch env customHeader uniqueList k s
    ∨ namedByAnswer env customHeader uniqueList k s.
Proof.
  unfold contributes, inFailedBatch, namedByAnswer.
  destruct (translateBatch env k _) as [translatedBatch|message].
  - split.
    + intros (obj & raw & H). right. exists translatedBatch, obj, raw. by split.
    + intros [[[m Hm] _]|(tb & obj & raw & [= <-] & H)]; [done|eauto].
  - split.
    + intros Hin. left. eauto.
    + intros [[_ Hin]|(tb & obj & raw & Hm & _)]; done.
Qed.

Lemma batchStep_keys env jobId customHeader uniqueList k st st' s :
  batchStep env jobId customHeader uniqueList (k * batchSize) st = Next st' →
  s ≠ "__proto__" →
  is_Some (own (translationCache st') !! s)
  ↔ is_Some (own (translationCache st) !! s) ∨ contributes env customHeader uniqueList k s.
Proof.
  intros Hstep Hs. rewrite (batchStep_own _ _ _ _ _ _ _ s Hstep Hs). unfold contributes.
  destruct (translateBatch env k _) as [translatedBatch|message].
  - rewrite <- lastNamed_named. destruct (lastNamed s translatedBatch); split; eauto.
    intros [?|[]%is_Some_None]; done.
  - case_decide; split; eauto. intros [?|?]; done.
Qed.

(** A batch that neither holds [s] and fails nor is answered with an
    element naming [s] leaves the entry of [s] as it is; a later failure
    of a batch holding [s] blanks it again. *)
Lemma batchStep_keeps_blank env jobId customHeader uniqueList k st st' s :
  batchStep env jobId customHeader uniqueList (k * batchSize) st = Next st' →
  s ≠ "__proto__" →
  ¬ namedByAnswer env customHeader uniqueList k s →
  own (translationCache st) !! s = Some (VStr "") →
  own (translationCache st') !! s = Some (VStr "").
Proof.
  intros Hstep Hs Hfree Hblank. rewrite (batchStep_own _ _ _ _ _ _ _ s Hstep Hs).
  unfold namedByAnswer in Hfree.
  destruct (translateBatch env k _) as [translatedBatch|message].
  - destruct (lastNamed s translatedBatch) as [x|] eqn:Hnamed; [|done].
    destruct Hfree. exists translatedBatch.
    destruct (proj1 (lastNamed_named s translatedBatch)) as (obj & raw & ?);
      [by rewrite Hnamed|]. eauto.
  - by case_decide.
Qed.

Lemma batchStep_keeps_none env jobId customHeader uniqueList k st st' s :
  batchStep env jobId customHeader uniqueList (k * batchSize) st = Next st' →
  s ≠ "__proto__" →
  ¬ contributes env customHeader uniqueList k s →
  own (translationCache st) !! s = None →
  own (translationCache st') !! s = None.
Proof.
  intros Hstep Hs Hfree Hnone.
  destruct (own (translationCache st') !! s) as [x|] eqn:Hx; [|done].
  destruct (proj1 (batchStep_keys _ _ _ _ _ _ _ s Hstep Hs)) as [[y Hy]|Hc];
    [by rewrite Hx|congruence|done].
Qed.

(** Nothing is inherited under [__proto__] only when there is no
    prototype: a name under which [Object.prototype] has nothing is not
    [__proto__]. *)
Lemma inherited_nothing s : inherited ObjectPrototype s = None → s ≠ "__proto__".
Proof. by intros Hs ->. Qed.

(** C1, as amended. When the writer starts, a string other than [__proto__]
    has a cache entry (one: entries are properties, keyed by the string)
    exactly when some batch that failed contains it or some returned array
    names it by a trimmed [key]; the entry is the empty string when the
    string was in a batch that failed and no later answer names it. So a
    string that a successful batch omitted or renamed has an entry only if
    another answer names it. When it has none, no answer names [__proto__]
    and [Object.prototype] has no property of that name, the cache yields
    [undefined] for it and the writer writes the empty string. *)
Theorem cache_entries_when_writer_starts env jobId customHeader uniqueList st :
  translateLoop env jobId customHeader uniqueList 0 startState = Next st →
  let cache := translationCache st in
  let inRange := fun k => k * batchSize < length uniqueList in
  (∀ s, s ≠ "__proto__" →
     (is_Some (own cache !! s)
      ↔ ∃ k, inRange k ∧ contributes env customHeader uniqueList k s))
  ∧ (∀ k s, s ≠ "__proto__" → inRange k →
       inFailedBatch env customHeader uniqueList k s →
       (∀ k', k < k' → inRange k' → ¬ namedByAnswer env customHeader uniqueList k' s) →
       own cache !! s = Some (VStr ""))
  ∧ (∀ s, (∀ k, inRange k → ¬ contributes env customHeader uniqueList k s) →
       (∀ k, inRange k → ¬ namedByAnswer env customHeader uniqueList k "__proto__") →
       inherited ObjectPrototype s = None →
       own cache !! s = None
       ∧ OrdinaryGet cache s = VUndefined
       ∧ ∀ book sheetName worksheet range ws it,
           Sheets book !! sheetName = Some ws →
           it ∈ extractRows sheetName worksheet range → Item.original it = s →
           cellOfBook (writer cache (extractRows sheetName worksheet range) book)
             sheetName (Item.targetColIndex it, Item.row it)
           = Some {| t := "s"; v := VStr "" |}).
Proof.
  intros Hloop cache inRange. subst cache inRange. split; [|split].
  - intros s Hs.
    pose (P := fun (i : nat) (st : loopState) =>
      ∃ k, i = k * batchSize
           ∧ (∀ k', k' < k → k' * batchSize < length uniqueList)
           ∧ (is_Some (own (translationCache st) !! s)
              ↔ ∃ k', k' < k ∧ contributes env customHeader uniqueList k' s)).
    destruct (translateLoop_invariant env jobId customHeader uniqueList P) with
      (i := 0) (st := startState) (st' := st) as (i' & Hi' & k & -> & Hbelow & Hkeys).
    + intros i st0 st1 Hi (k & -> & Hbelow & Hkeys) Hstep.
      exists (S k). split; [lia|]. split.
      * intros k' Hk'. destruct (decide (k' = k)) as [->|]; [done|]. apply Hbelow. lia.
      * rewrite (batchStep_keys _ _ _ _ _ _ _ s Hstep Hs), Hkeys. split.
        -- intros [(k' & Hk' & Hc)|Hc]; [exists k'|exists k]; split; (lia || done).
        -- intros (k' & Hk' & Hc). destruct (decide (k' = k)) as [->|]; [by right|].
           left. exists k'. split; [lia|done].
    + exists 0. split; [done|]. split; [lia|].
      simpl. rewrite lookup_empty. split; [by intros []|].
      intros (k' & Hk' & _). lia.
    + done.
    + rewrite Hkeys. split.
      * intros (k' & Hk' & Hc). exists k'. split; [by apply Hbelow|done].
      * intros (k' & Hk' & Hc). exists k'. split; [|done]. unfold batchSize in *. nia.
  - intros k s Hs Hk [[message Hfail] Hin] Hlater.
    pose (P := fun (i : nat) (st : loopState) =>
      ∃ n, i = n * batchSize ∧ (k < n → own (translationCache st) !! s = Some (VStr ""))).
    destruct (translateLoop_invariant env jobId customHeader uniqueList P) with
      (i := 0) (st := startState) (st' := st) as (i' & Hi' & n & -> & Hblank).
    + intros i st0 st1 Hi (n & -> & Hblank) Hstep.
      exists (S n). split; [lia|]. intros Hn.
      destruct (decide (n = k)) as [->|Hne].
      * rewrite (batchStep_own _ _ _ _ _ _ _ s Hstep Hs), Hfail. by rewrite decide_True.
      * eapply batchStep_keeps_blank; [done..| |].
        -- apply Hlater; [lia|done].
        -- apply Hblank. lia.
    + exists 0. split; [done|]. lia.
    + done.
    + apply Hblank. unfold batchSize in *. nia.
  - intros s Hfree Hproto Hinh.
    pose proof (inherited_nothing s Hinh) as Hs.
    pose (P := fun (i : nat) (st : loopState) =>
      ∃ n, i = n * batchSize ∧ untouchedPrototype (translationCache st)
           ∧ own (translationCache st) !! s = None).
    destruct (translateLoop_invariant env jobId customHeader uniqueList P) with
      (i := 0) (st := startState) (st' := st) as (i' & Hi' & n & -> & Hun & Hnone).
    + intros i st0 st1 Hi (n & -> & Hun & Hnone) Hstep.
      exists (S n). split; [lia|]. split.
      * eapply batchStep_untouched; [done| |done]. by apply Hproto.
      * eapply batchStep_keeps_none; [done..| |done]. by apply Hfree.
    + exists 0. split; [done|]. split; [done|]. simpl. apply lookup_empty.
    + done.
    + assert (Hget : OrdinaryGet (translationCache st) s = VUndefined).
      { unfold OrdinaryGet. rewrite Hnone. destruct Hun as [-> _]. by rewrite Hinh. }
      split; [done|]. split; [done|].
      intros book sheetName worksheet range ws it Hws Hin <-.
      rewrite (written_cell_of_row _ book sheetName worksheet range ws it Hws Hin).
      by rewrite Hget.
Qed.

(** ** Deduplication *)

Lemma uniqueTexts_from rows (seen : list string) :
  let set := fold_left (fun set it => setAdd (Item.original it) set) rows seen in
  (NoDup seen → NoDup set)
  ∧ ∀ s, s ∈ set ↔ s ∈ seen ∨ ∃ it, it ∈ rows ∧ Item.original it = s.
Proof.
  revert seen. induction rows as [|it rows IH]; intros seen; simpl.
  - split; [done|]. intros s. split; [by left|].
    intros [?|(it & Hin & _)]; [done|]. by apply not_elem_of_nil in Hin.
  - destruct (IH (setAdd (Item.original it) seen)) as [Hnd Hmem]. split.
    + intros Hseen. apply Hnd. unfold setAdd. case_bool_decide as Hin; [done|].
      apply NoDup_app. split; [done|]. split; [|apply NoDup_singleton].
      intros x Hx Hx'. apply list_elem_of_singleton in Hx' as ->. done.
    + intros s. rewrite Hmem. unfold setAdd. split.
      * intros [Hs|(it' & Hin & <-)].
        -- case_bool_decide; [by left|].
           apply elem_of_app in Hs as [?|Hs]; [by left|].
           apply list_elem_of_singleton in Hs as ->.
           right. exists it. split; [apply elem_of_cons; by left|done].
        -- right. exists it'. split; [apply elem_of_cons; by right|done].
      * intros [Hs|(it' & [->|Hin]%elem_of_cons & <-)].
        -- left. case_bool_decide; [done|]. apply elem_of_app. by left.
        -- left. case_bool_decide; [done|]. apply elem_of_app. right.
           by apply list_elem_of_singleton.
        -- right. eauto.
Qed.

Lemma uniqueTexts_spec rows :
  NoDup (uniqueTexts rows)
  ∧ ∀ s, s ∈ uniqueTexts rows ↔ ∃ it, it ∈ rows ∧ Item.original it = s.
Proof.
  destruct (uniqueTexts_from rows []) as [Hnd Hmem]. split.
  - apply Hnd. constructor.
  - intros s. unfold uniqueTexts. rewrite Hmem. split; [|by right].
    intros [Hs|?]; [|done]. by apply not_elem_of_nil in Hs.
Qed.





(** ** Progress reports *)

(** What one iteration reports: the percentage of the unique strings
    reached so far after a batch that was translated, nothing after a batch
    whose translation failed (the [catch] block ends in [continue]). *)
Lemma progress_report_of_a_batch env jobId customHeader uniqueList i st st' :
  let prompt := buildPrompt customHeader (slice i (i + batchSize) uniqueList) in
  batchStep env jobId customHeader uniqueList i st = Next st' →
  progressReports (log st')
  = progressReports (log st)
    ++ match translateBatch env (i / batchSize) prompt with
       | Normal _ =>
           [progressOf (Nat.min (length uniqueList) (i + batchSize)) (length uniqueList)]
       | Throw _ => []
       end.
Proof.
  intros prompt. unfold batchStep. fold prompt.
  destruct (translateBatch env _ _) as [translatedBatch|].
  - destruct (updateCache _ _); [|done]. intros [= <-]. simpl.
    rewrite !progressReports_app. simpl. by rewrite app_nil_r.
  - intros [= <-]. simpl. rewrite progressReports_app. simpl. done.
Qed.

(** C2, at a failing input. The sample sheet has two unique strings, hence
    one batch; the model is unreachable, so the batch fails. The job
    completes, having sent its one request and reported no progress at all,
    where a report of 100 is expected after the batch. *)
Theorem failed_batch_reports_no_progress :
  let run := processFile (sampleEnv sampleBook serviceDown []) sampleUrl "job-1" in
  outcome run = Normal "https://storage.example/processed-terms.xlsx"
  ∧ requests (events run) = [buildPrompt "" ["Hello"; "Bye"]]
  ∧ progressReports (events run) = [].
Proof. vm_compute. done. Qed.

(** C3, at a failing input. With 101 unique strings there are two batches;
    the first is translated, the second fails. The job completes and the
    only value it ever reported is 99: nothing follows the final batch. *)
Theorem progress_stops_short_when_last_batch_fails :
  let run := processFile (sampleEnv (longBook 101) firstCallOnly emptyParse)
               sampleUrl "job-1" in
  outcome run = Normal "https://storage.example/processed-terms.xlsx"
  ∧ length (requests (events run)) = 2
  ∧ progressReports (events run) = [99%Z].
Proof. vm_compute. done. Qed.

(** C1 as stated fails: the model answers the only batch with an empty
    array, the batch succeeds, and when the writer starts the cache holds
    no entry for the texts of the rows. *)
Lemma omitted_strings_have_no_entry :
  let env := sampleEnv sampleBook emptyAnswer emptyParse in
  let rows := extractRows "Sheet1" sampleSheet sampleRange in
  let result := translateLoop env "job-1" "" (uniqueTexts rows) 0 startState in
  (∃ st, result = Next st)
  ∧ ¬ (∀ it, it ∈ rows →
         is_Some (own (translationCache (finalState result)) !! Item.original it)).
Proof.
  split.
  - eexists. vm_compute. reflexivity.
  - intros Hall.
    specialize (Hall {| Item.sheetName := "Sheet1"; Item.row := 1; Item.original := "Hello";
                        Item.targetColIndex := 3; Item.translated := VUndefined |}).
    assert (Hin : {| Item.sheetName := "Sheet1"; Item.row := 1; Item.original := "Hello";
                     Item.targetColIndex := 3; Item.translated := VUndefined |}
                  ∈ extractRows "Sheet1" sampleSheet sampleRange).
    { apply list_elem_of_In. vm_compute. left. reflexivity. }
    apply Hall in Hin. vm_compute in Hin. by destruct Hin.
Qed.

(** ** The theorems at the sample jobs *)

(** The resolution rule on the sheet of the scenario. *)
Lemma resolution_on_sample_sheet :
  ref sampleSheet = Some sampleRange
  ∧ ∀ candidates,
      Resolution trim (filter nonBlank (headerTexts sampleSheet sampleRange)) candidates
        (findColumnByHeader sampleSheet candidates).
Proof.
  split; [reflexivity|].
  exact (proj1 (resolution_prefers_exact_then_pattern_then_default
                  sampleSheet sampleRange eq_refl)).
Defined.

(** The sample job with an answer made of bare strings. *)
Lemma bare_strings_abort_sample_job :
  let env := sampleEnv sampleBook bareAnswer bareParse in
  (∃ message, outcome (processFile env sampleUrl "job-1") = Throw message)
  ∧ last (postProcessFile env (Some sampleUrl) (Some "job-1"))
    = Some (UpdateStatus "job-1" "error" None).
Proof.
  intros env.
  apply (non_string_key_aborts_job env sampleUrl "job-1" sampleBook "Sheet1"
           sampleSheet sampleRange 0 [VStr "Hei"; VStr "Ha det"] (VStr "Hei")).
  - discriminate.
  - discriminate.
  - reflexivity.
  - reflexivity.
  - vm_compute. reflexivity.
  - vm_compute. lia.
  - vm_compute. reflexivity.
  - apply elem_of_cons. left. reflexivity.
  - intros s. simpl. discriminate.
Defined.

(** The sample job on a workbook whose sheet lost its range. *)
Lemma rangeless_sample_job :
  let env := sampleEnv rangelessBook serviceDown [] in
  events (processFile env sampleUrl "job-1") = []
  ∧ postProcessFile env (Some sampleUrl) (Some "job-1")
    = [UpdateStatus "job-1" "processing" None; Respond 202;
       UpdateStatus "job-1" "error" None].
Proof.
  intros env.
  apply (missing_range_aborts_before_translation env sampleUrl "job-1" rangelessBook
           "Sheet1" {| ref := None; cells := cells sampleSheet |}).
  - discriminate.
  - discriminate.
  - reflexivity.
  - reflexivity.
  - vm_compute. reflexivity.
  - reflexivity.
Defined.

(** The cache of the sample job when its only batch failed: both strings
    have the empty string as their entry. *)
Lemma cache_entries_of_sample_job :
  let env := sampleEnv sampleBook serviceDown [] in
  let st := finalState (translateLoop env "job-1" "" ["Hello"; "Bye"] 0 startState) in
  translateLoop env "job-1" "" ["Hello"; "Bye"] 0 startState = Next st
  ∧ (is_Some (own (translationCache st) !! "Hello")
     ↔ ∃ k, k * batchSize < length ["Hello"; "Bye"]
            ∧ contributes env "" ["Hello"; "Bye"] k "Hello")
  ∧ own (translationCache st) !! "Bye" = Some (VStr "").
Proof.
  intros env st.
  assert (Hloop : translateLoop env "job-1" "" ["Hello"; "Bye"] 0 startState = Next st)
    by (vm_compute; reflexivity).
  destruct (cache_entries_when_writer_starts env "job-1" "" ["Hello"; "Bye"] st Hloop)
    as (Hkeys & Hblank & _).
  split; [exact Hloop|]. split; [apply Hkeys; discriminate|].
  apply (Hblank 0).
  - discriminate.
  - simpl. lia.
  - split; [eexists; vm_compute; reflexivity|].
    apply list_elem_of_In. vm_compute. right. left. reflexivity.
  - intros k' Hk' Hrange. simpl in Hrange. unfold batchSize in Hrange. lia.
Defined.


(** * Further properties of the code *)

(** ** Trimmed texts *)

Lemma trimEnd_idem s : trimEnd (trimEnd s) = trimEnd s.
Proof.
  induction s as [|ch rest IH]; [done|]. simpl.
  destruct (trimEnd rest) as [|ch' kept] eqn:Hrest.
  - destruct (isWhiteSpace ch) eqn:Hch; [done|]. simpl. by rewrite Hch.
  - simpl in *. by rewrite IH.
Qed.

Lemma trimStart_clean ch rest :
  isWhiteSpace ch = false → trimStart (String ch rest) = String ch rest.
Proof. intros Hch. simpl. by rewrite Hch. Qed.

Lemma trimStart_shape s :
  trimStart s = "" ∨ ∃ ch rest, trimStart s = String ch rest ∧ isWhiteSpace ch = false.
Proof.
  induction s as [|ch rest IH]; [by left|]. simpl.
  destruct (isWhiteSpace ch) eqn:Hch; [done|]. right. eauto.
Qed.

Lemma trimEnd_head ch rest :
  isWhiteSpace ch = false → ∃ kept, trimEnd (String ch rest) = String ch kept.
Proof.
  intros Hch. simpl. destruct (trimEnd rest); [rewrite Hch|]; eauto.
Qed.

Lemma trim_idem s : trim (trim s) = trim s.
Proof.
  unfold trim. destruct (trimStart_shape s) as [->|(ch & rest & -> & Hch)]; [done|].
  destruct (trimEnd_head ch rest Hch) as [kept Hkept].
  rewrite Hkept, trimStart_clean by done. rewrite <- Hkept. apply trimEnd_idem.
Qed.

Lemma sourceText_trimmed cell original :
  sourceText cell = Some original → original ≠ "" ∧ trim original = original.
Proof.
  unfold sourceText. destruct cell as [[ty [val|]]|]; [|done..].
  destruct val; try done. destruct (String.eqb ty "s"); [|done]. simpl.
  destruct (String.eqb_spec (trim s) ""); [done|].
  intros [= <-]. split; [done|apply trim_idem].
Qed.

(** X1. Every text the extractor collects, and so every unique string sent
    for translation, is non-empty and free of surrounding white space: it is
    its own trimmed form, the form under which the cache is keyed. *)
Theorem extracted_texts_are_trimmed worksheet range sheetName src tgt :
  let rows := rowsToTranslate worksheet range sheetName src tgt in
  Forall (fun it => Item.original it ≠ "" ∧ trim (Item.original it) = Item.original it) rows
  ∧ Forall (fun s => s ≠ "" ∧ trim s = s) (uniqueTexts rows).
Proof.
  intros rows.
  assert (Hrows : Forall (fun it => Item.original it ≠ ""
                                    ∧ trim (Item.original it) = Item.original it) rows).
  { apply Forall_forall. intros it Hin.
    apply list_elem_of_In, in_flat_map in Hin as (r & _ & Hit).
    apply list_elem_of_In, rowAt_elem in Hit as [Hsrc _].
    by eapply sourceText_trimmed. }
  split; [exact Hrows|].
  apply Forall_forall. intros s Hs.
  apply (proj2 (uniqueTexts_spec rows)) in Hs as (it & Hin & <-).
  rewrite Forall_forall in Hrows. by apply Hrows.
Qed.

(** ** The order of the unique strings *)

Lemma uniqueTexts_grows rows (seen : list string) :
  ∃ added,
    fold_left (fun set it => setAdd (Item.original it) set) rows seen = seen ++ added
    ∧ added `sublist_of` map Item.original rows.
Proof.
  revert seen. induction rows as [|it rows IH]; intros seen; simpl.
  - exists []. by rewrite app_nil_r.
  - destruct (IH (setAdd (Item.original it) seen)) as (added & Heq & Hsub).
    rewrite Heq. unfold setAdd. case_bool_decide.
    + exists added. split; [done|]. by apply sublist_cons.
    + exists (Item.original it :: added). split; [by rewrite <- app_assoc|].
      by apply sublist_skip.
Qed.

(** X2. The unique strings keep the order in which the rows first show
    them: they are a subsequence of the row texts, and rows that come later
    only add strings at the end (the unique strings of a prefix of the rows
    are a prefix of the unique strings of all rows). *)
Theorem unique_texts_keep_first_seen_order (rows more : list item) :
  uniqueTexts rows `sublist_of` map Item.original rows
  ∧ uniqueTexts rows `prefix_of` uniqueTexts (rows ++ more)
  ∧ length (uniqueTexts rows) ≤ length rows.
Proof.
  destruct (uniqueTexts_grows rows []) as (added & Heq & Hsub). simpl in Heq.
  assert (Hu : uniqueTexts rows = added) by exact Heq.
  split; [by rewrite Hu|]. split.
  - unfold uniqueTexts. rewrite fold_left_app.
    destruct (uniqueTexts_grows more
                (fold_left (fun set it => setAdd (Item.original it) set) rows []))
      as (added' & -> & _).
    by apply prefix_app_r.
  - rewrite Hu. apply sublist_length in Hsub. by rewrite length_map in Hsub.
Qed.

(** ** Headers that are found *)

(** X3. A column that [findColumnByHeader] returns is a header of the
    sheet: it lies within the declared columns, its header cell holds a
    string that is not blank, and that string, trimmed, matches one of the
    candidates (a string candidate letter case apart, or a pattern). *)
Theorem found_column_is_a_matching_header worksheet candidates c :
  findColumnByHeader worksheet candidates = Some c →
  ∃ range cell x,
    ref worksheet = Some range ∧ s_c range ≤ c ≤ e_c range
    ∧ getCell worksheet c (s_r range) = Some cell ∧ v cell = VStr x ∧ trim x ≠ ""
    ∧ ((∃ y, CString y ∈ candidates ∧ toLowerCase (trim x) = toLowerCase y)
       ∨ (∃ re, CRegExp re ∈ candidates ∧ re (trim x) = true)).
Proof.
  intros Hfound.
  destruct (ref worksheet) as [range|] eqn:Href;
    [|unfold findColumnByHeader in Hfound; by rewrite Href in Hfound].
  pose proof (findColumnByHeader_Resolution worksheet range candidates Href) as Hres.
  rewrite Hfound in Hres.
  assert (Hheader : ∀ h, h ∈ filter nonBlank (headerTexts worksheet range) →
            ∃ cell, s_c range ≤ fst h ≤ e_c range
                    ∧ getCell worksheet (fst h) (s_r range) = Some cell
                    ∧ v cell = VStr (snd h) ∧ trim (snd h) ≠ "").
  { intros h [Hnb Hh]%list_elem_of_filter.
    apply list_elem_of_omap in Hh as (col & Hcol & Hh).
    apply elem_of_seq in Hcol. unfold headerText in Hh.
    destruct (getCell worksheet col (s_r range)) as [[ty [val|]]|] eqn:Hcell; [|done..].
    destruct val; try done. injection Hh as <-. simpl.
    eexists. split; [lia|]. split; [exact Hcell|]. done. }
  assert (Hin : ∀ before (cand : candidate) after,
            candidates = before ++ cand :: after → cand ∈ candidates).
  { intros before cand after ->. apply elem_of_app. right. apply elem_of_cons. by left. }
  inversion Hres as [before x after h Hc _ Hh Heq|before re after h _ Hc _ Hh Heq|];
    apply firstHit_elem in Hh as [Hh Hm];
    destruct (Hheader h Hh) as (cell & Hcol & Hcell & Hv & Hnb);
    exists range, cell, (snd h); (do 5 (split; [done|])).
  - left. exists x. split; [by eapply Hin|exact Hm].
  - right. exists re. split; [by eapply Hin|exact Hm].
Qed.

(** ** The event log of the batch loop *)

(** X4. The event log of the batch loop, whatever the model answers. When
    the loop completes over [n] unique strings it has run [n / 100] rounded
    up iterations (none for [n = 0]) and logged, batch after batch, the
    request followed by one progress report, or the request alone where
    the translation failed: one request per batch, each for the next 100
    strings, and never more progress reports than batches. When the loop
    aborts, the log is such a record of the batches before, followed by the
    request of the aborting batch. *)
Theorem batch_loop_event_log env jobId customHeader uniqueList :
  let batches := batchCount (length uniqueList) in
  let prompt := fun k => buildPrompt customHeader (batchAt uniqueList k) in
  match translateLoop env jobId customHeader uniqueList 0 startState with
  | Next st =>
      log st = flat_map (batchEvents env jobId customHeader uniqueList) (seq 0 batches)
      ∧ requests (log st) = map prompt (seq 0 batches)
      ∧ length (progressReports (log st)) ≤ batches
  | Aborted _ st =>
      ∃ k, k < batches
           ∧ log st = flat_map (batchEvents env jobId customHeader uniqueList) (seq 0 k)
                      ++ [SendMessage (prompt k)]
           ∧ requests (log st) = map prompt (seq 0 (S k))
  end.
Proof.
  intros batches prompt.
  pose proof (translateLoop_log env jobId customHeader uniqueList) as Hlog.
  destruct (translateLoop env jobId customHeader uniqueList 0 startState) as [st|message st].
  - destruct (batchEvents_counts env jobId customHeader uniqueList (seq 0 batches))
      as [Hreq Hprog].
    rewrite Hlog. split; [done|]. split; [exact Hreq|].
    by rewrite length_seq in Hprog.
  - destruct Hlog as (k & Hk & ->). exists k. split; [done|]. split; [done|].
    destruct (batchEvents_counts env jobId customHeader uniqueList (seq 0 k)) as [Hreq _].
    rewrite requests_app, Hreq, seq_S, map_app. done.
Qed.

(** ** Storing an answer *)

Lemma updateCache_throw_source translatedBatch (cache : plainObject) message :
  updateCache translatedBatch cache = Throw message →
  ∃ translationObj, translationObj ∈ translatedBatch ∧ KeyNotString translationObj.
Proof.
  revert cache. induction translatedBatch as [|obj rest IH]; intros cache; simpl; [done|].
  assert (Hhere : KeyNotString obj →
            ∃ translationObj, translationObj ∈ obj :: rest ∧ KeyNotString translationObj).
  { intros Hbad. exists obj. split; [apply elem_of_cons; by left|done]. }
  destruct (getProp obj "key") as [k|] eqn:Hk.
  - destruct k as [| | | |raw| |];
      try (intros _; apply Hhere; intros raw'; rewrite Hk; discriminate).
    simpl. destruct (getProp_string_key obj raw Hk) as (props & -> & _ & ->).
    intros Hrest. destruct (IH _ Hrest) as (x & Hx & Hbad).
    exists x. split; [apply elem_of_cons; by right|done].
  - intros _. apply Hhere. intros raw'. rewrite Hk. discriminate.
Qed.

(** X6. Storing an answer throws exactly when one of its elements has a
    [key] that is not a string; what the [value] fields hold, and what the
    cache holds, plays no part. *)
Theorem storing_throws_iff_some_key_is_not_a_string
    translatedBatch (cache : plainObject) :
  (∃ message, updateCache translatedBatch cache = Throw message)
  ↔ ∃ translationObj, translationObj ∈ translatedBatch ∧ KeyNotString translationObj.
Proof.
  split.
  - intros [message Hthrow]. by eapply updateCache_throw_source.
  - intros (obj & Hin & Hbad). by eapply updateCache_aborts.
Qed.

(** ** The shape of a run *)

Lemma batchEvents_loop env jobId customHeader uniqueList ks :
  Forall isLoopEvent (flat_map (batchEvents env jobId customHeader uniqueList) ks).
Proof.
  induction ks as [|k ks IH]; simpl; [constructor|].
  constructor; [done|]. apply Forall_app. split; [|done].
  destruct (translateBatch env k _); repeat constructor.
Qed.

Lemma translateLoop_loop_events env jobId customHeader uniqueList :
  Forall isLoopEvent
    (log (finalState (translateLoop env jobId customHeader uniqueList 0 startState))).
Proof.
  pose proof (translateLoop_log env jobId customHeader uniqueList) as Hlog.
  destruct (translateLoop _ _ _ _ _ _) as [st|message st]; simpl.
  - rewrite Hlog. apply batchEvents_loop.
  - destruct Hlog as (k & _ & ->). apply Forall_app. split; [apply batchEvents_loop|].
    by repeat constructor.
Qed.

(** The events of [processFile]: those of the batch loop, then at most the
    one upload, under the name derived from the URL. *)
Lemma processFile_events env fileUrl jobId :
  ∃ looped tail,
    events (processFile env fileUrl jobId) = looped ++ tail
    ∧ Forall isLoopEvent looped
    ∧ (tail = []
       ∨ ∃ content, tail = [Save ("processed-" +:+ lastSegment fileUrl) content]).
Proof.
  assert (Hnone : ∀ message, ∃ looped tail,
            events (thrown message []) = looped ++ tail ∧ Forall isLoopEvent looped
            ∧ (tail = [] ∨ ∃ content,
                 tail = [Save ("processed-" +:+ lastSegment fileUrl) content])).
  { intros message. exists [], []. split; [done|]. split; [constructor|by left]. }
  unfold processFile.
  destruct (error (jobs_select env jobId)); [apply Hnone|].
  destruct (download env (lastSegment fileUrl)) as [book|]; [|apply Hnone].
  destruct (firstSheet book) as [[[sheetName worksheet] range]|]; [|apply Hnone].
  pose proof (translateLoop_loop_events env jobId (customHeaderOf (jobs_select env jobId))
                (uniqueTexts (extractRows sheetName worksheet range))) as Hloop.
  destruct (translateLoop _ _ _ _ _ _) as [st|message st]; simpl in Hloop.
  - destruct (save env _ _).
    + destruct (getSignedUrl env _); simpl;
        (eexists (log st), [_]; split; [done|]; split; [done|]; right; eauto).
    + exists (log st), []. rewrite app_nil_r. split; [done|]. split; [done|by left].
  - exists (log st), []. rewrite app_nil_r. split; [done|]. split; [done|by left].
Qed.

Lemma loop_events_silent evs :
  Forall isLoopEvent evs → statusUpdates evs = [] ∧ responses evs = [] ∧ saves evs = [].
Proof.
  induction 1 as [|ev evs Hev _ IH]; [done|].
  destruct ev; try done; simpl; exact IH.
Qed.

Lemma omap_events_app {A : Type} (f : event -> option A) evs1 evs2 :
  omap f (evs1 ++ evs2) = omap f evs1 ++ omap f evs2.
Proof. apply omap_app. Qed.

Lemma processFile_silent env fileUrl jobId :
  statusUpdates (events (processFile env fileUrl jobId)) = []
  ∧ responses (events (processFile env fileUrl jobId)) = [].
Proof.
  destruct (processFile_events env fileUrl jobId) as (looped & tail & -> & Hloop & Htail).
  destruct (loop_events_silent looped Hloop) as (Hs & Hr & _).
  unfold statusUpdates, responses in *. rewrite !omap_events_app, Hs, Hr.
  by destruct Htail as [->|[content ->]].
Qed.

(** ** The request handler *)

(** X7. An accepted request (both fields present and not empty) is
    answered once, with 202, and sets the job status exactly twice: to
    "processing" before anything else happens, and, as the very last event,
    to "completed" with the signed URL when [processFile] resolved or to
    "error" when it rejected. The pipeline in between answers nothing and
    sets no status; all it saves is what [processFile] saves. *)
Theorem accepted_request_sets_status_twice env fileUrl jobId :
  let evs := postProcessFile env (Some fileUrl) (Some jobId) in
  let run := processFile env fileUrl jobId in
  let terminal := match outcome run with
                  | Normal url => (jobId, "completed", Some url)
                  | Throw _ => (jobId, "error", None)
                  end in
  fileUrl ≠ "" → jobId ≠ "" →
  responses evs = [202]
  ∧ statusUpdates evs = [(jobId, "processing", None); terminal]
  ∧ head evs = Some (UpdateStatus jobId "processing" None)
  ∧ (∃ status url, last evs = Some (UpdateStatus jobId status url)
                   ∧ terminal = (jobId, status, url))
  ∧ saves evs = saves (events run).
Proof.
  intros evs run terminal Hf Hj. subst evs. unfold postProcessFile.
  destruct (String.eqb_spec fileUrl ""); [done|].
  destruct (String.eqb_spec jobId ""); [done|]. simpl. fold run.
  destruct (processFile_silent env fileUrl jobId) as [Hs Hr]. fold run in Hs, Hr.
  unfold responses, statusUpdates, saves in *.
  rewrite !omap_events_app, Hs, Hr. subst terminal.
  split; [by destruct (outcome run)|]. split; [by destruct (outcome run)|].
  split; [done|]. split.
  - rewrite !app_comm_cons, last_snoc. destruct (outcome run); eauto.
  - destruct (outcome run); simpl; by rewrite app_nil_r.
Qed.

(** X8. The endpoint answers 401, and does nothing else, exactly when the
    [x-api-key] header is absent or differs from the expected key; the
    expected key is never empty, and it is "your-secret-api-key" when the
    environment configures none or an empty one. *)
Theorem endpoint_rejects_exactly_wrong_keys env configured key fileUrl jobId :
  (processFileEndpoint env configured key fileUrl jobId = [Respond 401]
   ↔ key ≠ Some (API_KEY configured))
  ∧ API_KEY configured ≠ ""
  ∧ API_KEY None = "your-secret-api-key" ∧ API_KEY (Some "") = "your-secret-api-key".
Proof.
  assert (Hne : API_KEY configured ≠ "").
  { unfold API_KEY. destruct configured as [k|]; [|done].
    by destruct (String.eqb_spec k ""). }
  assert (Hauth : authenticate (API_KEY configured) key = true
                  ↔ key = Some (API_KEY configured)).
  { unfold authenticate. destruct key as [k|]; [|done]. split.
    - intros [_ Hk%String.eqb_eq]%andb_true_iff. by rewrite Hk.
    - intros [= ->]. rewrite String.eqb_refl.
      destruct (String.eqb_spec (API_KEY configured) ""); done. }
  split; [|split; [exact Hne|]].
  - unfold processFileEndpoint.
    destruct (authenticate (API_KEY configured) key) eqn:Ha.
    + split; [|intros Hk; by destruct (Hk (proj1 Hauth eq_refl))]. intros Hev _.
      unfold postProcessFile in Hev.
      destruct fileUrl as [f|], jobId as [j|]; try done.
      by destruct (String.eqb f "" || String.eqb j "").
    + split; [|done]. intros _ Hk. by apply Hauth in Hk.
  - done.
Qed.

(** ** What the writer leaves alone *)

Lemma lastWrite_none name key rows :
  (∀ it, it ∈ rows → Item.sheetName it = name →
         (Item.targetColIndex it, Item.row it) ≠ key) →
  lastWrite name key rows = None.
Proof.
  intros Hfree. destruct (lastWrite name key rows) as [it|] eqn:Hlast; [|done].
  apply lastWrite_elem in Hlast as (Hin & Hname & Hkey). by destruct (Hfree it Hin Hname).
Qed.

(** X9. The writer changes nothing but the cells it is asked to write: the
    sheet names, the set of sheets and the declared range of every sheet
    stay as they are (the range is not extended when a target cell lies
    outside it), and a cell that is not the target cell of some row of its
    sheet keeps its content. *)
Theorem writer_touches_only_target_cells
    (cache : plainObject) (rows : list item) (book : workbook) name key :
  (∀ it, it ∈ rows → Item.sheetName it = name →
         (Item.targetColIndex it, Item.row it) ≠ key) →
  cellOfBook (writer cache rows book) name key = cellOfBook book name key
  ∧ SheetNames (writer cache rows book) = SheetNames book
  ∧ ∀ name', ref <$> (Sheets (writer cache rows book) !! name')
             = ref <$> (Sheets book !! name').
Proof.
  intros Hfree. split; [|split].
  - rewrite writer_cell, (lastWrite_none _ _ _ Hfree). done.
  - unfold writer. apply fold_writeItem_SheetNames.
  - intros name'. unfold writer. apply fold_writeItem_ref.
Qed.

(** ** The name of the upload *)

Lemma occurs_app ch s1 s2 : occurs ch (s1 +:+ s2) = occurs ch s1 || occurs ch s2.
Proof.
  induction s1 as [|ch' s1 IH]; simpl; [done|]. rewrite IH. apply orb_assoc.
Qed.

Lemma lastSegment_after_slash dir name :
  occurs "/" name = false → lastSegment (dir +:+ "/" +:+ name) = name.
Proof.
  intros Hname.
  assert (Hslash : "/" +:+ name = String "/" name) by reflexivity.
  induction dir as [|ch dir IH].
  - change ("" +:+ "/" +:+ name) with (String "/" name). simpl. by rewrite Hname.
  - change (String ch dir +:+ "/" +:+ name) with (String ch (dir +:+ "/" +:+ name)).
    simpl. rewrite occurs_app, Hslash. simpl. rewrite orb_true_r. exact IH.
Qed.

Lemma processFile_resolved env fileUrl jobId url :
  outcome (processFile env fileUrl jobId) = Normal url →
  getSignedUrl env ("processed-" +:+ lastSegment fileUrl) = Normal url
  ∧ ∃ content,
      last (events (processFile env fileUrl jobId))
      = Some (Save ("processed-" +:+ lastSegment fileUrl) content)
      ∧ save env ("processed-" +:+ lastSegment fileUrl) content = Normal tt.
Proof.
  unfold processFile.
  destruct (error (jobs_select env jobId)); [done|].
  destruct (download env (lastSegment fileUrl)) as [book|]; [|done].
  destruct (firstSheet book) as [[[sheetName worksheet] range]|]; [|done].
  destruct (translateLoop _ _ _ _ _ _) as [st|message st]; [|done].
  destruct (save env _ _) as [[]|] eqn:Hsave; [|done].
  destruct (getSignedUrl env _) as [signedUrl|] eqn:Hsign; [|done].
  simpl. intros [= <-]. split; [done|]. eexists. by rewrite last_snoc.
Qed.

(** X10. A job for the URL [dir/name] uploads at most one object, as the
    last thing it does, and under the name [processed-name], whatever the
    directory part of the URL is; when [processFile] resolves, that upload
    took place and the result is the signed URL of that object. *)
Theorem upload_is_named_after_the_file env dir name jobId :
  let run := processFile env (dir +:+ "/" +:+ name) jobId in
  occurs "/" name = false →
  (saves (events run) = []
   ∨ ∃ content, saves (events run) = [("processed-" +:+ name, content)]
                ∧ last (events run) = Some (Save ("processed-" +:+ name) content))
  ∧ ∀ url, outcome run = Normal url →
           getSignedUrl env ("processed-" +:+ name) = Normal url
           ∧ saves (events run) ≠ [].
Proof.
  intros run Hname.
  pose proof (lastSegment_after_slash dir name Hname) as Hseg.
  destruct (processFile_events env (dir +:+ "/" +:+ name) jobId)
    as (looped & tail & Hev & Hloop & Htail).
  fold run in Hev. rewrite Hseg in Htail.
  destruct (loop_events_silent looped Hloop) as (_ & _ & Hsaves).
  assert (Hshape : saves (events run) = []
            ∨ ∃ content, saves (events run) = [("processed-" +:+ name, content)]
                         ∧ last (events run) = Some (Save ("processed-" +:+ name) content)).
  { rewrite Hev. unfold saves in *. rewrite omap_events_app, Hsaves.
    destruct Htail as [->|[content ->]]; [by left|].
    right. exists content. split; [done|]. by rewrite last_snoc. }
  split; [exact Hshape|].
  intros url Hout. subst run.
  apply processFile_resolved in Hout as (Hsign & content & Hlast & _).
  rewrite Hseg in Hsign, Hlast. split; [done|].
  intros Hnil. destruct Hshape as [_|(c & Hc & _)]; [|congruence].
  rewrite Hev in Hlast, Hnil. unfold saves in Hnil, Hsaves.
  rewrite omap_events_app, Hsaves in Hnil. simpl in Hnil.
  destruct Htail as [->|[c ->]]; [|done].
  rewrite app_nil_r in Hlast. rewrite Forall_forall in Hloop.
  assert (Hin : Save ("processed-" +:+ name) content ∈ looped)
    by (destruct looped using rev_ind; [done|]; rewrite last_snoc in Hlast;
        injection Hlast as ->; apply elem_of_app; right; apply elem_of_cons; by left).
  by apply Hloop in Hin.
Qed.

Lemma updateCache_stores translatedBatch (cache : plainObject) :
  (∀ translationObj, translationObj ∈ translatedBatch →
     ∃ raw, getProp translationObj "key" = Normal (VStr raw)) →
  ∃ cache', updateCache translatedBatch cache = Normal cache'.
Proof.
  revert cache. induction translatedBatch as [|obj rest IH]; intros cache Hall; simpl.
  - eauto.
  - destruct (Hall obj) as [raw Hk]; [apply elem_of_cons; by left|].
    rewrite Hk. simpl.
    destruct (getProp_string_key obj raw Hk) as (props & -> & _ & ->).
    apply IH. intros x Hx. apply Hall, elem_of_cons. by right.
Qed.

(** X5. An answer all of whose elements have a string [key] is stored
    without throwing, it overwrites, and its last element wins: after the
    update, the entry of a text other than [__proto__] is the [value] of
    the last element of the answer whose trimmed [key] is that text,
    whatever the cache held before, and a read of the cache yields that
    value; the entries of texts the answer does not name are kept. An
    answer that does not name [__proto__] leaves the prototype of the
    cache, and the entry of that name, as they were. *)
Theorem stored_answer_overwrites_last_wins translatedBatch (cache : plainObject) :
  (∀ translationObj, translationObj ∈ translatedBatch →
     ∃ raw, getProp translationObj "key" = Normal (VStr raw)) →
  ∃ cache',
    updateCache translatedBatch cache = Normal cache'
    ∧ (∀ s, s ≠ "__proto__" →
         own cache' !! s = match lastNamed s translatedBatch with
                           | Some x => Some x
                           | None => own cache !! s
                           end)
    ∧ (∀ s x, s ≠ "__proto__" → lastNamed s translatedBatch = Some x →
         OrdinaryGet cache' s = x)
    ∧ (lastNamed "__proto__" translatedBatch = None →
         proto cache' = proto cache
         ∧ own cache' !! "__proto__" = own cache !! "__proto__").
Proof.
  intros Hkeys.
  destruct (updateCache_stores translatedBatch cache Hkeys) as [cache' Hupd].
  exists cache'. split; [exact Hupd|]. split; [|split].
  - intros s Hs. by apply updateCache_lookup.
  - intros s x Hs Hnamed. unfold OrdinaryGet.
    by rewrite (updateCache_lookup _ _ _ s Hupd Hs), Hnamed.
  - by apply updateCache_proto.
Qed.

(** What a first answer that does not name [__proto__] makes a read of the
    cache yield. *)
Lemma updateCache_fresh translatedBatch cache s :
  updateCache translatedBatch emptyObject = Normal cache →
  lastNamed "__proto__" translatedBatch = None →
  OrdinaryGet cache s
  = match lastNamed s translatedBatch with
    | Some x => Data x
    | None => default (Data VUndefined) (inherited ObjectPrototype s)
    end.
Proof.
  intros Hupd Hfree. destruct (updateCache_proto _ _ _ Hupd Hfree) as [Hproto Hown].
  unfold OrdinaryGet. rewrite Hproto. simpl.
  destruct (decide (s = "__proto__")) as [->|Hs].
  - rewrite Hown, Hfree. simpl. by rewrite lookup_empty.
  - rewrite (updateCache_lookup _ _ _ s Hupd Hs). simpl. rewrite lookup_empty.
    by destruct (lastNamed s translatedBatch).
Qed.

(** X16. When the translation of a batch fails (the service call rejects,
    no JSON array is found, the JSON is malformed, or the parsed value is
    not an array) the iteration ends normally: every string of the batch
    other than [__proto__] gets the empty string as its cache entry, the
    entries of the strings outside the batch and the prototype of the
    cache are untouched, nothing but the request is logged, and the loop
    goes on with the next batch from that state. A cache that still has
    its first prototype and no entry [__proto__] stays so, even when the
    batch holds that string. *)
Theorem failed_batch_blanks_every_other_string
    env jobId customHeader uniqueList i st :
  let batch := slice i (i + batchSize) uniqueList in
  let prompt := buildPrompt customHeader batch in
  i < length uniqueList →
  BatchFailure env (i / batchSize) prompt →
  ∃ st',
    batchStep env jobId customHeader uniqueList i st = Next st'
    ∧ (∀ s, s ∈ batch → s ≠ "__proto__" →
         own (translationCache st') !! s = Some (VStr ""))
    ∧ (∀ s, s ∉ batch →
         own (translationCache st') !! s = own (translationCache st) !! s)
    ∧ proto (translationCache st') = proto (translationCache st)
    ∧ (untouchedPrototype (translationCache st) →
       untouchedPrototype (translationCache st'))
    ∧ log st' = log st ++ [SendMessage prompt]
    ∧ translateLoop env jobId customHeader uniqueList i st
      = translateLoop env jobId customHeader uniqueList (i + batchSize) st'.
Proof.
  intros batch prompt Hi [message Hfail]%translateBatch_fails.
  eexists. split; [|split; [|split; [|split; [|split; [|split]]]]].
  - unfold batchStep. fold batch. fold prompt. rewrite Hfail. reflexivity.
  - intros s Hin Hs. simpl. rewrite markEmpty_own by done. by rewrite decide_True.
  - intros s Hs. simpl. by apply markEmpty_other.
  - simpl. apply markEmpty_proto.
  - simpl. apply markEmpty_untouched.
  - reflexivity.
  - rewrite translateLoop_step by done.
    unfold batchStep. fold batch. fold prompt. rewrite Hfail. reflexivity.
Qed.

(** X17. The cache behaves as a dictionary under every key but
    [__proto__]: what is assigned under a key is what a read under that key
    yields, and reads under all other keys are unchanged, inherited names
    included. Under [__proto__] it does not: on a cache that still has its
    first prototype, assigning a string there changes nothing, and a read
    yields [Object.prototype]. *)
Theorem cache_is_a_dictionary_except_at_proto (object : plainObject) :
  (∀ name x, name ≠ "__proto__" →
     OrdinaryGet (OrdinarySet object name x) name = x
     ∧ ∀ s, s ≠ name → OrdinaryGet (OrdinarySet object name x) s = OrdinaryGet object s)
  ∧ (untouchedPrototype object →
     OrdinaryGet object "__proto__" = Builtin TheObjectPrototype
     ∧ ∀ text, OrdinarySet object "__proto__" (VStr text) = object).
Proof.
  split.
  - intros name x Hname. rewrite OrdinarySet_plain by done. unfold OrdinaryGet. simpl.
    split; [by rewrite lookup_insert_eq|].
    intros s Hs. by rewrite lookup_insert_ne.
  - intros Hun. split; [|intros text; by apply OrdinarySet_proto_string].
    destruct Hun as [Hproto Hown]. unfold OrdinaryGet. by rewrite Hown, Hproto.
Qed.

(** X18. An element of the answer whose trimmed [key] is [__proto__] makes
    no entry in a cache that still has its first prototype; when its
    [value] is an object, an array or [null], that value becomes the
    prototype of the cache. From then on a text without an entry of its
    own reads as the property of that object under its name, as the
    element of that array under its index or as its [length], and as
    [undefined] after [null], the names of [Object.prototype] included.
    Any other [value] is ignored. *)
Theorem answer_keyed_proto_replaces_the_prototype
    (cache : plainObject) translationObj raw x :
  untouchedPrototype cache →
  getProp translationObj "key" = Normal (VStr raw) → trim raw = "__proto__" →
  getProp translationObj "value" = Normal x →
  ∃ cache',
    updateCache [translationObj] cache = Normal cache'
    ∧ own cache' = own cache
    ∧ match x with
      | VObj props =>
          proto cache' = ParsedObject props
          ∧ ∀ s (y : value), own cache !! s = None → ownEntry s props = Some y →
                   OrdinaryGet cache' s = y
      | VArr items =>
          proto cache' = ParsedArray items
          ∧ (own cache !! "length" = None →
             OrdinaryGet cache' "length" = VNum (numberOfNat (length items)))
          ∧ ∀ s i (y : value), own cache !! s = None → arrayIndex s = Some i →
                     items !! N.to_nat i = Some y → OrdinaryGet cache' s = y
      | VNull =>
          proto cache' = NoPrototype
          ∧ ∀ s, own cache !! s = None → OrdinaryGet cache' s = VUndefined
      | _ => cache' = cache
      end.
Proof.
  intros [Hproto Hown] Hkey Htrim Hvalue. simpl.
  rewrite Hkey, Hvalue. simpl. rewrite Htrim.
  assert (Hreach : reachesProtoSetter cache "__proto__" = true)
    by (unfold reachesProtoSetter; by rewrite Hown, Hproto).
  unfold OrdinarySet. rewrite Hreach.
  destruct x as [| | | | |items|props]; eexists; (split; [reflexivity|]); simpl;
    (split; [reflexivity|]); try reflexivity.
  - split; [reflexivity|]. intros s Hs. unfold OrdinaryGet. simpl. by rewrite Hs.
  - split; [reflexivity|]. split.
    + intros Hlen. unfold OrdinaryGet. simpl. by rewrite Hlen.
    + intros s i y Hs Hi Hy. unfold OrdinaryGet. simpl. rewrite Hs. simpl.
      unfold arrayOwn. rewrite Hi.
      destruct (String.eqb_spec s "length") as [->|_]; [done|].
      apply lookup_lt_Some in Hy as Hlt.
      destruct (N.ltb_spec i (N.of_nat (length items))) as [_|Hge]; [|lia].
      by rewrite Hy.
  - split; [reflexivity|].
    intros s y Hs Hy. unfold OrdinaryGet. simpl. by rewrite Hs, Hy.
Qed.

(** ** Whole runs *)

Lemma firstSheet_inv book sheetName worksheet range :
  firstSheet book = Some (sheetName, worksheet, range) →
  head (SheetNames book) = Some sheetName ∧ Sheets book !! sheetName = Some worksheet
  ∧ ref worksheet = Some range.
Proof.
  unfold firstSheet. destruct (head (SheetNames book)) as [n|]; [|done].
  destruct (Sheets book !! n) as [ws|] eqn:Hws; [|done].
  destruct (ref ws) as [r|] eqn:Hr; [|done]. intros [= -> -> ->]. done.
Qed.

(** A run whose loop completes: what is left is the writer, the upload and
    the signing. *)
Lemma processFile_completed env fileUrl jobId book sheetName worksheet range st :
  let rows := extractRows sheetName worksheet range in
  let name := "processed-" +:+ lastSegment fileUrl in
  let written := writer (translationCache st) rows book in
  error (jobs_select env jobId) = None →
  download env (lastSegment fileUrl) = Normal book →
  firstSheet book = Some (sheetName, worksheet, range) →
  translateLoop env jobId (customHeaderOf (jobs_select env jobId)) (uniqueTexts rows)
    0 startState = Next st →
  processFile env fileUrl jobId
  = match save env name written with
    | Throw message => thrown message (log st)
    | Normal _ =>
        match getSignedUrl env name with
        | Throw message => thrown message (log st ++ [Save name written])
        | Normal url => {| outcome := Normal url; events := log st ++ [Save name written] |}
        end
    end.
Proof.
  intros rows name written Hsel Hdl Hsheet Hloop.
  unfold processFile. rewrite Hsel, Hdl, Hsheet. fold rows. by rewrite Hloop.
Qed.

(** X11. When the source column holds no text below the header row (the
    sheet has only its header row, say), the job sends no translation
    request and reports no progress; it uploads the workbook exactly as it
    was downloaded and resolves to the signed URL, unless the upload or the
    signing throws. *)
Theorem job_without_texts_uploads_the_workbook_unchanged
    env fileUrl jobId book sheetName worksheet range :
  let run := processFile env fileUrl jobId in
  let name := "processed-" +:+ lastSegment fileUrl in
  error (jobs_select env jobId) = None →
  download env (lastSegment fileUrl) = Normal book →
  firstSheet book = Some (sheetName, worksheet, range) →
  extractRows sheetName worksheet range = [] →
  requests (events run) = [] ∧ progressReports (events run) = []
  ∧ saves (events run) = match save env name book with
                         | Normal _ => [(name, book)]
                         | Throw _ => []
                         end
  ∧ outcome run = match save env name book with
                  | Normal _ => getSignedUrl env name
                  | Throw message => Throw message
                  end.
Proof.
  intros run name Hsel Hdl Hsheet Hrows. subst run.
  rewrite (processFile_completed env fileUrl jobId book sheetName worksheet range startState
             Hsel Hdl Hsheet).
  - rewrite Hrows. simpl. fold name. unfold writer. simpl.
    destruct (save env name book); [|done].
    by destruct (getSignedUrl env name).
  - rewrite Hrows. simpl. by apply translateLoop_done.
Qed.

Lemma outage_loop env jobId customHeader uniqueList :
  (∀ callNo prompt, BatchFailure env callNo prompt) →
  ∃ st,
    translateLoop env jobId customHeader uniqueList 0 startState = Next st
    ∧ untouchedPrototype (translationCache st)
    ∧ (∀ s, s ∈ uniqueList → s ≠ "__proto__" →
         own (translationCache st) !! s = Some (VStr ""))
    ∧ progressReports (log st) = []
    ∧ length (requests (log st)) = batchCount (length uniqueList).
Proof.
  intros Hdown.
  assert (Hfail : ∀ callNo prompt, ∃ message,
             translateBatch env callNo prompt = Throw message)
    by (intros; by apply translateBatch_fails).
  assert (Hevents : ∀ ks,
            progressReports (flat_map (batchEvents env jobId customHeader uniqueList) ks) = []
            ∧ length (requests (flat_map (batchEvents env jobId customHeader uniqueList) ks))
              = length ks).
  { induction ks as [|k ks [IH1 IH2]]; [done|].
    change (flat_map (batchEvents env jobId customHeader uniqueList) (k :: ks))
      with (batchEvents env jobId customHeader uniqueList k
            ++ flat_map (batchEvents env jobId customHeader uniqueList) ks).
    rewrite progressReports_app, requests_app, length_app, IH1, IH2. unfold batchEvents.
    destruct (Hfail k (buildPrompt customHeader (batchAt uniqueList k))) as [m ->].
    done. }
  pose proof (translateLoop_log env jobId customHeader uniqueList) as Hlog.
  destruct (translateLoop env jobId customHeader uniqueList 0 startState)
    as [st|message st] eqn:Hloop.
  - exists st. split; [done|]. rewrite Hlog.
    destruct (Hevents (seq 0 (batchCount (length uniqueList)))) as [-> ->].
    rewrite length_seq.
    destruct (translateLoop_invariant env jobId customHeader uniqueList
                (fun i st => untouchedPrototype (translationCache st)
                             ∧ ∀ s, s ∈ take i uniqueList → s ≠ "__proto__" →
                                    own (translationCache st) !! s = Some (VStr "")))
      with (i := 0) (st := startState) (st' := st) as (i' & Hi' & Hun & Hcache).
    + intros i st0 st1 Hi [Hun Hinv] Hstep. unfold batchStep in Hstep.
      destruct (Hfail (i / batchSize)
                  (buildPrompt customHeader (slice i (i + batchSize) uniqueList)))
        as [m Hm].
      rewrite Hm in Hstep. injection Hstep as <-. simpl.
      split; [by apply markEmpty_untouched|]. intros s Hs Hne.
      rewrite markEmpty_own by done. case_decide as Hb; [done|]. apply Hinv; [|done].
      rewrite <- take_take_drop in Hs. apply elem_of_app in Hs as [Hs|Hs]; [done|].
      destruct Hb. unfold slice. by replace (i + batchSize - i) with batchSize by lia.
    + split; [done|]. intros s Hs. by apply not_elem_of_nil in Hs.
    + done.
    + split; [done|]. split; [|done]. intros s Hs. apply Hcache. by rewrite take_ge.
  - exfalso.
    destruct (translateLoop_abort_point env jobId customHeader uniqueList
                (fun _ _ => True)) with (i := 0) (st := startState)
      (message := message) (st' := st) as (i0 & st0 & _ & _ & Hstep); [done..|].
    unfold batchStep in Hstep.
    destruct (Hfail (i0 / batchSize)
                (buildPrompt customHeader (slice i0 (i0 + batchSize) uniqueList)))
      as [m Hm].
    by rewrite Hm in Hstep.
Qed.

(** X12. When no batch can be translated (the model is unreachable, or
    answers nothing that parses to an array) the job still runs to its end:
    one request per batch, no progress report, and, save for a failing
    upload or signature, it resolves having uploaded the workbook with an
    empty text in the target cell of every translatable row but one: a row
    whose text is [__proto__] gets [Object.prototype] there, the failed
    batch having left no entry for it. *)
Theorem outage_yields_blank_translations
    env fileUrl jobId book sheetName worksheet range url :
  let run := processFile env fileUrl jobId in
  let rows := extractRows sheetName worksheet range in
  let name := "processed-" +:+ lastSegment fileUrl in
  error (jobs_select env jobId) = None →
  download env (lastSegment fileUrl) = Normal book →
  firstSheet book = Some (sheetName, worksheet, range) →
  (∀ callNo prompt, BatchFailure env callNo prompt) →
  (∀ content, save env name content = Normal tt) →
  getSignedUrl env name = Normal url →
  outcome run = Normal url
  ∧ progressReports (events run) = []
  ∧ length (requests (events run)) = batchCount (length (uniqueTexts rows))
  ∧ ∃ content,
      saves (events run) = [(name, content)]
      ∧ ∀ it, it ∈ rows →
          cellOfBook content sheetName (Item.targetColIndex it, Item.row it)
          = Some {| t := "s";
                    v := if String.eqb (Item.original it) "__proto__"
                         then Builtin TheObjectPrototype else Data (VStr "") |}.
Proof.
  intros run rows name Hsel Hdl Hsheet Hdown Hsave Hsign.
  destruct (outage_loop env jobId (customHeaderOf (jobs_select env jobId))
              (uniqueTexts rows) Hdown) as (st & Hloop & [Hproto Hown] & Hcache & Hprog & Hreq).
  subst run.
  rewrite (processFile_completed env fileUrl jobId book sheetName worksheet range st
             Hsel Hdl Hsheet Hloop).
  fold name. fold rows. rewrite Hsave, Hsign. simpl.
  destruct (loop_events_silent (log st)) as (_ & _ & Hsaves).
  { pose proof (translateLoop_loop_events env jobId
                  (customHeaderOf (jobs_select env jobId)) (uniqueTexts rows)) as H.
    by rewrite Hloop in H. }
  split; [done|]. split; [by rewrite progressReports_app, Hprog|].
  split; [by rewrite requests_app, app_nil_r|].
  eexists. split.
  - unfold saves in *. by rewrite omap_events_app, Hsaves.
  - intros it Hin.
    destruct (firstSheet_inv _ _ _ _ Hsheet) as (_ & Hws & _).
    rewrite (written_cell_of_row _ book sheetName worksheet range worksheet it Hws Hin).
    unfold OrdinaryGet.
    destruct (String.eqb_spec (Item.original it) "__proto__") as [->|Hne].
    + by rewrite Hown, Hproto.
    + rewrite Hcache; [done| |done].
      apply (proj2 (uniqueTexts_spec rows)). eauto.
Qed.

(** X13. A job of at most 100 unique strings whose one answer parses to an
    array with string keys, none of them [__proto__]: there is one request
    and one progress report, the upload follows, and the target cell of
    every translatable row holds the [value] of the last element of the
    answer whose trimmed [key] is the text of the row. Where no element
    names the text, the cell holds what a plain object inherits under that
    name (a built-in function for "constructor" or "toString",
    [Object.prototype] for "__proto__"); it holds the empty string where
    nothing is inherited either, or the value is missing or falsy. *)
Theorem answered_job_writes_the_translations
    env fileUrl jobId book sheetName worksheet range translatedBatch url :
  let run := processFile env fileUrl jobId in
  let rows := extractRows sheetName worksheet range in
  let uniqueList := uniqueTexts rows in
  let prompt := buildPrompt (customHeaderOf (jobs_select env jobId)) uniqueList in
  let name := "processed-" +:+ lastSegment fileUrl in
  error (jobs_select env jobId) = None →
  download env (lastSegment fileUrl) = Normal book →
  firstSheet book = Some (sheetName, worksheet, range) →
  0 < length uniqueList ≤ batchSize →
  translateBatch env 0 prompt = Normal translatedBatch →
  (∀ translationObj, translationObj ∈ translatedBatch →
     ∃ raw, getProp translationObj "key" = Normal (VStr raw)) →
  lastNamed "__proto__" translatedBatch = None →
  (∀ content, save env name content = Normal tt) →
  getSignedUrl env name = Normal url →
  outcome run = Normal url
  ∧ ∃ content,
      events run
      = [SendMessage prompt;
         UpdateProgress jobId (progressOf (length uniqueList) (length uniqueList));
         Save name content]
      ∧ ∀ it, it ∈ rows →
          cellOfBook content sheetName (Item.targetColIndex it, Item.row it)
          = Some {| t := "s";
                    v := or_else
                           match lastNamed (Item.original it) translatedBatch with
                           | Some x => Data x
                           | None =>
                               default (Data VUndefined)
                                 (inherited ObjectPrototype (Item.original it))
                           end
                           (VStr "") |}.
Proof.
  intros run rows uniqueList prompt name Hsel Hdl Hsheet [Hpos Hle] Hanswer Hkeys Hfree
    Hsave Hsign.
  destruct (updateCache_stores translatedBatch emptyObject Hkeys) as [cache Hcache].
  assert (Hslice : slice 0 (0 + batchSize) uniqueList = uniqueList).
  { unfold slice. replace (0 + batchSize - 0) with batchSize by lia.
    rewrite drop_0. apply take_ge. lia. }
  assert (Hloop : translateLoop env jobId (customHeaderOf (jobs_select env jobId))
                    uniqueList 0 startState
                  = Next {| translationCache := cache;
                            log := [SendMessage prompt;
                                    UpdateProgress jobId
                                      (progressOf (length uniqueList) (length uniqueList))] |}).
  { rewrite translateLoop_step by done. unfold batchStep.
    rewrite Hslice. fold prompt. rewrite Nat.Div0.div_0_l.
    rewrite Hanswer. simpl. rewrite Hcache.
    rewrite translateLoop_done by (simpl; lia).
    by rewrite Nat.min_l by lia. }
  subst run.
  rewrite (processFile_completed env fileUrl jobId book sheetName worksheet range _
             Hsel Hdl Hsheet Hloop).
  fold name. fold rows. rewrite Hsave, Hsign. simpl.
  split; [done|]. eexists. split; [done|].
  intros it Hin.
  destruct (firstSheet_inv _ _ _ _ Hsheet) as (_ & Hws & _).
  rewrite (written_cell_of_row _ book sheetName worksheet range worksheet it Hws Hin).
  by rewrite (updateCache_fresh _ _ (Item.original it) Hcache Hfree).
Qed.

(** ** The array text handed to the JSON parser *)

Lemma sapp_cons ch s1 s2 : String ch s1 +:+ s2 = String ch (s1 +:+ s2).
Proof. reflexivity. Qed.

Lemma sapp_nil s : "" +:+ s = s.
Proof. reflexivity. Qed.

Lemma sapp_assoc s1 s2 s3 : (s1 +:+ s2) +:+ s3 = s1 +:+ s2 +:+ s3.
Proof.
  induction s1 as [|ch s1 IH]; [done|]. by rewrite !sapp_cons, IH.
Qed.

Lemma slength_app s1 s2 :
  String.length (s1 +:+ s2) = String.length s1 + String.length s2.
Proof.
  induction s1 as [|ch s1 IH]; [done|]. rewrite sapp_cons. simpl. by rewrite IH.
Qed.

Lemma sapp_split s1 x s2 y :
  s1 +:+ x = s2 +:+ y → String.length s1 ≤ String.length s2 →
  ∃ mid, s2 = s1 +:+ mid ∧ x = mid +:+ y.
Proof.
  revert s2. induction s1 as [|ch s1 IH]; intros s2 Heq Hlen.
  - exists s2. by rewrite !sapp_nil in *.
  - destruct s2 as [|ch' s2]; [simpl in Hlen; lia|].
    rewrite !sapp_cons in Heq. injection Heq as <- Heq.
    destruct (IH s2 Heq) as (mid & -> & ->); [simpl in Hlen; lia|].
    exists mid. by rewrite sapp_cons.
Qed.

Lemma substring_skip pre n s :
  substring (String.length pre) n (pre +:+ s) = substring 0 n s.
Proof. induction pre as [|ch pre IH]; [done|]. by rewrite sapp_cons. Qed.

Lemma substring_take s rest : substring 0 (String.length s) (s +:+ rest) = s.
Proof.
  induction s as [|ch s IH]; [by destruct rest|]. rewrite sapp_cons. simpl. by rewrite IH.
Qed.

Lemma index_char_spec ch s :
  match index 0 (String ch "") s with
  | Some i =>
      ∃ pre rest, s = pre +:+ String ch rest ∧ String.length pre = i
                  ∧ occurs ch pre = false
  | None => occurs ch s = false
  end.
Proof.
  induction s as [|b s IH]; [done|].
  assert (Hprefix : String.prefix (String ch "") (String b s) = Ascii.eqb ch b).
  { simpl. destruct (ascii_dec ch b) as [->|Hne].
    - rewrite Ascii.eqb_refl. by destruct s.
    - by apply Ascii.eqb_neq in Hne as ->. }
  cbn [index]. rewrite Hprefix. cbn [occurs].
  destruct (Ascii.eqb ch b) eqn:Hb.
  - apply Ascii.eqb_eq in Hb as ->. by exists "", s.
  - destruct (index 0 (String ch "") s) as [i|].
    + destruct IH as (pre & rest & -> & <- & Hpre).
      exists (String b pre), rest. split; [done|]. split; [done|].
      cbn [occurs]. by rewrite Hb, Hpre.
    + by rewrite IH.
Qed.

Lemma lastIndexOf_spec ch s :
  match lastIndexOf ch s with
  | Some j =>
      ∃ pre post, s = pre +:+ String ch post ∧ String.length pre = j
                  ∧ occurs ch post = false
  | None => occurs ch s = false
  end.
Proof.
  induction s as [|b s IH]; [done|]. cbn [lastIndexOf occurs].
  destruct (lastIndexOf ch s) as [j|].
  - destruct IH as (pre & post & -> & <- & Hpost).
    by exists (String b pre), post.
  - destruct (Ascii.eqb ch b) eqn:Hb; [|by rewrite IH].
    apply Ascii.eqb_eq in Hb as ->. by exists "", s.
Qed.

Lemma occurs_middle ch s1 s2 : occurs ch (s1 +:+ String ch s2) = true.
Proof.
  rewrite occurs_app. cbn [occurs]. rewrite Ascii.eqb_refl. apply orb_true_r.
Qed.

(** X14. What [translateBatch] cuts out of the cleaned answer: when the
    answer holds an opening bracket and, somewhere after it, a closing
    bracket, the text from the first opening bracket through the last
    closing bracket, so that whatever stands before or after is ignored;
    and nothing otherwise, which makes the batch fail. *)
Theorem matched_array_spans_first_to_last_bracket s :
  match matchArray s with
  | Some matched =>
      ∃ pre body post,
        s = pre +:+ "[" +:+ body +:+ "]" +:+ post
        ∧ matched = "[" +:+ body +:+ "]"
        ∧ occurs "[" pre = false ∧ occurs "]" post = false
  | None => ∀ pre body post, s ≠ pre +:+ "[" +:+ body +:+ "]" +:+ post
  end.
Proof.
  unfold matchArray.
  pose proof (index_char_spec "[" s) as Hfirst.
  pose proof (lastIndexOf_spec "]" s) as Hlast.
  destruct (index 0 "[" s) as [i|]; cycle 1.
  { intros pre body post ->.
    change ("[" +:+ body +:+ "]" +:+ post) with (String "[" (body +:+ "]" +:+ post))
      in Hfirst.
    by rewrite occurs_middle in Hfirst. }
  destruct (lastIndexOf "]" s) as [j|]; cycle 1.
  { intros pre body post ->.
    change ("]" +:+ post) with (String "]" post) in Hlast.
    rewrite <- !sapp_assoc in Hlast. by rewrite occurs_middle in Hlast. }
  destruct Hfirst as (pre1 & rest1 & Hs1 & <- & Hpre1).
  destruct Hlast as (pre2 & post2 & Hs2 & <- & Hpost2).
  destruct (Nat.ltb_spec (String.length pre1) (String.length pre2)) as [Hlt|Hge].
  - destruct (sapp_split pre1 (String "[" rest1) pre2 (String "]" post2))
      as (mid & -> & Hmid); [congruence|lia|].
    destruct mid as [|ch body];
      [rewrite slength_app in Hlt; simpl in Hlt; lia|].
    rewrite sapp_cons in Hmid. injection Hmid as <- ->.
    exists pre1, body, post2. split; [by rewrite Hs1|].
    split; [|done].
    rewrite Hs1, substring_skip, slength_app.
    replace (String.length pre1 + String.length (String "[" body) - String.length pre1 + 1)
      with (String.length ("[" +:+ body +:+ "]"))
      by (change ("[" +:+ body +:+ "]") with (String "[" (body +:+ "]"));
          simpl; rewrite slength_app; simpl; lia).
    replace (String "[" (body +:+ String "]" post2))
      with (("[" +:+ body +:+ "]") +:+ post2) by (by rewrite !sapp_assoc).
    apply substring_take.
  - intros pre body post Hs.
    assert (H1 : String.length pre1 ≤ String.length pre).
    { destruct (Nat.le_gt_cases (String.length pre1) (String.length pre)) as [|Hgt];
        [done|].
      destruct (sapp_split pre (String "[" (body +:+ "]" +:+ post)) pre1
                  (String "[" rest1)) as (mid & -> & Hmid);
        [by rewrite <- Hs1, Hs|lia|].
      destruct mid as [|ch mid];
        [rewrite slength_app in Hgt; simpl in Hgt; lia|].
      rewrite sapp_cons in Hmid. injection Hmid as <- _.
      rewrite occurs_app in Hpre1. cbn [occurs] in Hpre1.
      rewrite Ascii.eqb_refl, orb_true_r in Hpre1. done. }
    assert (H2 : String.length pre + 1 + String.length body ≤ String.length pre2).
    { destruct (Nat.le_gt_cases (String.length pre + 1 + String.length body)
                  (String.length pre2)) as [|Hgt]; [done|].
      destruct (sapp_split pre2 (String "]" post2) (pre +:+ "[" +:+ body)
                  (String "]" post)) as (mid & Hpre & Hmid).
      { rewrite <- Hs2, Hs. by rewrite !sapp_assoc. }
      { rewrite !slength_app. simpl. lia. }
      destruct mid as [|ch mid].
      - rewrite sapp_nil in Hmid.
        apply (f_equal String.length) in Hpre.
        rewrite !slength_app in Hpre. simpl in Hpre. lia.
      - rewrite sapp_cons in Hmid. injection Hmid as <- ->.
        by rewrite occurs_middle in Hpost2. }
    lia.
Qed.

Lemma dropTrailingCommas_keeps dropping s :
  withoutCommasAndSpace (dropTrailingCommas dropping s) = withoutCommasAndSpace s
  ∧ String.length (dropTrailingCommas dropping s) ≤ String.length s.
Proof.
  revert dropping. induction s as [|ch rest IH]; intros dropping; [done|].
  cbn [dropTrailingCommas withoutCommasAndSpace String.length].
  destruct (IH true) as [Ht Hlt], (IH false) as [Hf Hlf].
  destruct dropping.
  - destruct (isWhiteSpace ch) eqn:Hws.
    + rewrite orb_true_r. split; [done|lia].
    + cbn [withoutCommasAndSpace String.length]. rewrite Hws, Hf. split; [done|lia].
  - destruct (Ascii.eqb ch ",") eqn:Hcomma.
    + destruct (closesAfterSpace rest); simpl.
      * split; [done|lia].
      * rewrite Hcomma. simpl. split; [done|lia].
    + simpl. rewrite Hcomma, Hf. split; [done|lia].
Qed.

Lemma dropTrailingCommas_no_comma s :
  occurs "," s = false → dropTrailingCommas false s = s.
Proof.
  induction s as [|ch rest IH]; [done|]. cbn [occurs dropTrailingCommas].
  intros [Hch Hrest]%orb_false_iff. rewrite Ascii.eqb_sym in Hch. rewrite Hch. simpl.
  by rewrite IH.
Qed.

(** X15. The tolerance for trailing commas only ever deletes commas and
    white space: with these left out, the text given to the JSON parser
    reads the same as the text that was matched; it is never longer; and a
    text without commas passes unchanged. *)
Theorem comma_tolerance_deletes_only_commas_and_space s :
  withoutCommasAndSpace (dropTrailingCommas false s) = withoutCommasAndSpace s
  ∧ String.length (dropTrailingCommas false s) ≤ String.length s
  ∧ (occurs "," s = false → dropTrailingCommas false s = s).
Proof.
  destruct (dropTrailingCommas_keeps false s) as [Hsame Hlen].
  split; [done|]. split; [done|]. apply dropTrailingCommas_no_comma.
Qed.

(** ** The further properties at the sample jobs *)

(** The target column of the sample sheet is the header found by pattern. *)
Lemma found_target_of_sample_sheet :
  ∃ range cell x,
    ref sampleSheet = Some range ∧ s_c range ≤ 3 ≤ e_c range
    ∧ getCell sampleSheet 3 (s_r range) = Some cell ∧ v cell = VStr x ∧ trim x ≠ ""
    ∧ ((∃ y, CString y ∈ targetCandidates ∧ toLowerCase (trim x) = toLowerCase y)
       ∨ (∃ re, CRegExp re ∈ targetCandidates ∧ re (trim x) = true)).
Proof.
  apply (found_column_is_a_matching_header sampleSheet targetCandidates 3).
  vm_compute. reflexivity.
Defined.

(** Storing the good answer in an empty cache. *)
Lemma stored_good_answer :
  let answer := [ VObj [("key", VStr "Hello"); ("value", VStr "Hei")];
                  VObj [("key", VStr " Bye "); ("value", VStr "Ha det")] ] in
  ∃ cache, updateCache answer emptyObject = Normal cache
           ∧ own cache !! "Bye" = Some (VStr "Ha det")
           ∧ OrdinaryGet cache "Bye" = VStr "Ha det"
           ∧ proto cache = ObjectPrototype.
Proof.
  intros answer.
  destruct (stored_answer_overwrites_last_wins answer emptyObject)
    as (cache & Hupd & Hlookup & Hget & Hproto).
  - intros obj Hin. subst answer. each_member Hin; subst obj; eexists; reflexivity.
  - exists cache. split; [exact Hupd|]. split; [|split].
    + rewrite Hlookup by discriminate. vm_compute. reflexivity.
    + apply Hget; [discriminate|]. vm_compute. reflexivity.
    + apply Hproto. vm_compute. reflexivity.
Defined.

(** The only batch of the sample job fails: both strings are blanked and
    the loop moves on to the offset after the batch. *)
Lemma failed_batch_on_sample_job :
  let env := sampleEnv sampleBook serviceDown [] in
  ∃ st',
    batchStep env "job-1" "" ["Hello"; "Bye"] 0 startState = Next st'
    ∧ own (translationCache st') !! "Hello" = Some (VStr "")
    ∧ own (translationCache st') !! "Bye" = Some (VStr "")
    ∧ translateLoop env "job-1" "" ["Hello"; "Bye"] 0 startState
      = translateLoop env "job-1" "" ["Hello"; "Bye"] (0 + batchSize) st'.
Proof.
  intros env.
  destruct (failed_batch_blanks_every_other_string
              env "job-1" "" ["Hello"; "Bye"] 0 startState)
    as (st' & Hstep & Hin & _ & _ & _ & _ & Hloop).
  - simpl. lia.
  - apply (ServiceError _ _ _ "503 Service Unavailable"). reflexivity.
  - exists st'. split; [exact Hstep|]. split; [|split; [|exact Hloop]].
    + apply Hin; [|discriminate]. apply list_elem_of_In. vm_compute. left. reflexivity.
    + apply Hin; [|discriminate].
      apply list_elem_of_In. vm_compute. right. left. reflexivity.
Defined.

(** An answer that hands the cache a prototype: the text "Hello", which
    the answer does not name, then reads as "Hei". *)
Lemma prototype_from_sample_answer :
  ∃ cache',
    updateCache [VObj [("key", VStr " __proto__ "); ("value", VObj [("Hello", VStr "Hei")])]]
      emptyObject = Normal cache'
    ∧ own cache' = ∅
    ∧ OrdinaryGet cache' "Hello" = VStr "Hei".
Proof.
  destruct (answer_keyed_proto_replaces_the_prototype emptyObject
              (VObj [("key", VStr " __proto__ "); ("value", VObj [("Hello", VStr "Hei")])])
              " __proto__ " (VObj [("Hello", VStr "Hei")]))
    as (cache' & Hupd & Hown & _ & Hget).
  - split; reflexivity.
  - reflexivity.
  - vm_compute. reflexivity.
  - reflexivity.
  - exists cache'. split; [exact Hupd|]. split; [exact Hown|].
    apply Hget; reflexivity.
Defined.

(** The handler on the sample job with the model unreachable. *)
Lemma accepted_sample_request :
  responses (postProcessFile (sampleEnv sampleBook serviceDown [])
               (Some sampleUrl) (Some "job-1")) = [202].
Proof.
  apply (accepted_request_sets_status_twice (sampleEnv sampleBook serviceDown [])
           sampleUrl "job-1"); discriminate.
Defined.

(** The writer on the sample sheet leaves the source cell of row 1 alone. *)
Lemma writer_keeps_sample_source_cell :
  let rows := extractRows "Sheet1" sampleSheet sampleRange in
  cellOfBook (writer emptyObject rows sampleBook) "Sheet1" (1, 1)
  = cellOfBook sampleBook "Sheet1" (1, 1).
Proof.
  intros rows.
  apply (writer_touches_only_target_cells emptyObject rows sampleBook "Sheet1" (1, 1)).
  intros it Hin _ Hkey.
  assert (Htgt : Item.targetColIndex it = 3).
  { subst rows. unfold extractRows in Hin.
    apply list_elem_of_In, in_flat_map in Hin as (r & _ & Hit).
    apply list_elem_of_In, rowAt_elem in Hit as [_ ->]. vm_compute. reflexivity. }
  injection Hkey as Hcol _. rewrite Htgt in Hcol. discriminate.
Defined.

(** The sample URL: the upload is named after [terms.xlsx]. *)
Lemma upload_of_sample_job :
  let run := processFile (sampleEnv sampleBook serviceDown [])
               ("https://storage.example/uploads" +:+ "/" +:+ "terms.xlsx") "job-1" in
  saves (events run) = []
  ∨ ∃ content,
      saves (events run) = [("processed-" +:+ "terms.xlsx", content)]
      ∧ last (events run) = Some (Save ("processed-" +:+ "terms.xlsx") content).
Proof.
  apply (upload_is_named_after_the_file (sampleEnv sampleBook serviceDown [])
           "https://storage.example/uploads" "terms.xlsx" "job-1").
  reflexivity.
Defined.

(** The job on the sheet that has its header row only. *)
Lemma header_only_job :
  let run := processFile (sampleEnv headerOnlyBook serviceDown []) sampleUrl "job-1" in
  requests (events run) = [] ∧ progressReports (events run) = []
  ∧ saves (events run) = [("processed-terms.xlsx", headerOnlyBook)].
Proof.
  intros run.
  destruct (job_without_texts_uploads_the_workbook_unchanged
              (sampleEnv headerOnlyBook serviceDown []) sampleUrl "job-1" headerOnlyBook
              "Sheet1" headerOnlySheet {| s_c := 0; s_r := 0; e_c := 3; e_r := 0 |})
    as (Hreq & Hprog & Hsaves & _).
  - reflexivity.
  - reflexivity.
  - vm_compute. reflexivity.
  - vm_compute. reflexivity.
  - split; [exact Hreq|]. split; [exact Hprog|exact Hsaves].
Defined.

(** The sample job during an outage. *)
Lemma outage_of_sample_job :
  let run := processFile (sampleEnv sampleBook serviceDown []) sampleUrl "job-1" in
  outcome run = Normal "https://storage.example/processed-terms.xlsx"
  ∧ progressReports (events run) = [].
Proof.
  intros run.
  destruct (outage_yields_blank_translations
              (sampleEnv sampleBook serviceDown []) sampleUrl "job-1" sampleBook
              "Sheet1" sampleSheet sampleRange "https://storage.example/processed-terms.xlsx")
    as (Hout & Hprog & _).
  - reflexivity.
  - reflexivity.
  - vm_compute. reflexivity.
  - intros callNo prompt. apply (ServiceError _ _ _ "503 Service Unavailable"). reflexivity.
  - reflexivity.
  - reflexivity.
  - split; [exact Hout|exact Hprog].
Defined.

(** The sample job answered well. *)
Lemma answered_sample_job :
  outcome (processFile (sampleEnv sampleBook goodAnswer goodParse) sampleUrl "job-1")
  = Normal "https://storage.example/processed-terms.xlsx".
Proof.
  apply (answered_job_writes_the_translations
           (sampleEnv sampleBook goodAnswer goodParse) sampleUrl "job-1" sampleBook
           "Sheet1" sampleSheet sampleRange
           [ VObj [("key", VStr "Hello"); ("value", VStr "Hei")];
             VObj [("key", VStr " Bye "); ("value", VStr "Ha det")] ]).
  - reflexivity.
  - reflexivity.
  - vm_compute. reflexivity.
  - vm_compute. lia.
  - vm_compute. reflexivity.
  - intros obj Hin. each_member Hin; subst obj; eexists; reflexivity.
  - vm_compute. reflexivity.
  - reflexivity.
  - reflexivity.
Defined.
